(** * P2PHost: the authoritative host of a peer-to-peer boardgame.io match

    A shallow embedding of [src/host.ts].  The class keeps a registry of
    attached clients, a private match store, and a [Master]; it gates
    registration on the credentials persisted in the match metadata and fans
    the master's outbound payloads out to the registered clients through the
    per-player view filter.

    Effects are modelled by a small monad: a method threads the host's fields,
    may complete abruptly (JavaScript [throw]), and emits the calls it makes on
    its collaborators (console, store writes, view filter, client [send],
    master entry points) as an ordered list of events.

    The collaborators stay outside: the master appears through the calls made
    on it and through the two sinks it may call back, and a client's [send] is
    a call that returns.  The master is handed the same store; what it does
    there on its own ([onConnectionChange] records an [isConnected] flag in
    the player's entry) is not part of the host's code and is not followed:
    it touches neither the credentials nor the set of player slots, which is
    what the store of the model is kept for.  The events of a method are the
    calls made by the code of [host.ts] itself. *)

From Stdlib Require Import ZArith Lia Ascii.
From stdpp Require Import base option list strings gmap.

(** ** JavaScript values, as far as the host looks at them *)

(** [client.metadata.playerID]: the code distinguishes [null], [undefined] and
    strings (strict equality in the [send] sink keeps the first two apart). *)
Inductive PlayerID :=
  | pid_null
  | pid_undefined
  | pid_string (s : string).

#[global] Instance PlayerID_eq_dec : EqDecision PlayerID.
Proof. solve_decision. Defined.

(** Credentials are [string | undefined]; [None] is [undefined]. *)
Definition Credentials := option string.

(** JavaScript truthiness of a [string | undefined]: [undefined] and the empty
    string are falsy. *)
Definition truthy (v : Credentials) : bool :=
  match v with
  | Some s => negb (String.eqb s "")
  | None => false
  end.

(** Strict equality [===] on [string | undefined]. *)
Definition strict_eq (a b : Credentials) : bool := bool_decide (a = b).

(** The result of unary plus on a string, up to the property key it denotes:
    [Index n] is the non-negative integer [n] (its key is the numeral of [n];
    [-0] is [Index 0]), [NaN] is the result on a string that is no numeric
    literal, and [OtherNumber] stands for the remaining numbers (negative,
    fractional, infinite), none of which names a player slot. *)
Inductive Number :=
  | NaN
  | Index (n : N)
  | OtherNumber.

(** The slot a number selects in [metadata.players]. boardgame.io declares
    [players : { [id: number]: PlayerMetadata }] and [createMatch] fills it
    with the ids [0 .. numPlayers-1], so only [Index] keys can be present. *)
Definition property_key (x : Number) : option N :=
  match x with
  | Index n => Some n
  | NaN | OtherNumber => None
  end.

(** *** Unary plus on a string

    ECMAScript's [StringToNumber] on strings of code units below 256: trim
    white space, read a [StrNumericLiteral], round its value to the nearest
    double (ties to even) and keep what [property_key] needs.  The methods of
    the host take the cast as a parameter; this is the cast they are run
    with. *)
Module StringToNumber.

Definition code (c : ascii) : N := Ascii.N_of_ascii c.

(** Tab, line feed, vertical tab, form feed, carriage return, space and
    no-break space. *)
Definition is_white_space (c : ascii) : bool :=
  bool_decide (code c ∈ [9; 10; 11; 12; 13; 32; 160]%N).

Fixpoint drop_white_space (l : list ascii) : list ascii :=
  match l with
  | c :: l' => if is_white_space c then drop_white_space l' else l
  | [] => []
  end.

Definition trim (l : list ascii) : list ascii :=
  rev (drop_white_space (rev (drop_white_space l))).

(** The value of a digit in a radix up to 16, if it is one. *)
Definition digit (radix : N) (c : ascii) : option N :=
  let n := code c in
  let v :=
    if (48 <=? n)%N && (n <=? 57)%N then Some (n - 48)%N
    else if (97 <=? n)%N && (n <=? 102)%N then Some (n - 87)%N
    else if (65 <=? n)%N && (n <=? 70)%N then Some (n - 55)%N
    else None in
  match v with
  | Some d => if (d <? radix)%N then Some d else None
  | None => None
  end.

(** The longest prefix of digits, most significant first, and what follows. *)
Fixpoint digits (radix : N) (l : list ascii) : list N * list ascii :=
  match l with
  | c :: l' =>
      match digit radix c with
      | Some d => let '(ds, r) := digits radix l' in (d :: ds, r)
      | None => ([], l)
      end
  | [] => ([], [])
  end.

Definition value (radix : N) (ds : list N) : N :=
  fold_left (λ acc d, acc * radix + d)%N ds 0%N.

(** The mathematical value of a literal. *)
Inductive MV :=
  | not_a_literal
  | infinity
  | decimal (m : N) (e : Z).   (* m * 10^e *)

Definition is_e (c : ascii) : bool := bool_decide (code c ∈ [101; 69]%N).

(** [ExponentPart_opt] after a mantissa [m] with [f] fraction digits. *)
Definition exponent_part (m : N) (f : Z) (l : list ascii) : MV :=
  match l with
  | [] => decimal m (- f)
  | c :: l' =>
      if is_e c then
        let '(sign, l'') :=
          match l' with
          | s :: t =>
              if bool_decide (code s = 43%N) then (1%Z, t)
              else if bool_decide (code s = 45%N) then ((-1)%Z, t)
              else (1%Z, l')
          | [] => (1%Z, l')
          end in
        match digits 10 l'' with
        | ((_ :: _) as ds, []) => decimal m (sign * Z.of_N (value 10 ds) - f)
        | _ => not_a_literal
        end
      else not_a_literal
  end.

Definition Infinity : list ascii := String.list_ascii_of_string "Infinity".

(** [StrUnsignedDecimalLiteral] *)
Definition unsigned_decimal (l : list ascii) : MV :=
  if bool_decide (l = Infinity) then infinity
  else
    let '(ip, r) := digits 10 l in
    match r with
    | c :: r' =>
        if bool_decide (code c = 46%N) then
          let '(fp, r'') := digits 10 r' in
          match ip, fp with
          | [], [] => not_a_literal
          | _, _ => exponent_part (value 10 (ip ++ fp)) (Z.of_nat (length fp)) r''
          end
        else
          match ip with
          | [] => not_a_literal
          | _ => exponent_part (value 10 ip) 0 r
          end
    | [] =>
        match ip with
        | [] => not_a_literal
        | _ => decimal (value 10 ip) 0
        end
    end.

(** [NonDecimalIntegerLiteral]: [0x], [0o], [0b] and their capitals. *)
Definition non_decimal (l : list ascii) : option N :=
  match l with
  | z :: p :: ((_ :: _) as l') =>
      if bool_decide (code z = 48%N) then
        let radix :=
          if bool_decide (code p ∈ [120; 88]%N) then Some 16%N
          else if bool_decide (code p ∈ [111; 79]%N) then Some 8%N
          else if bool_decide (code p ∈ [98; 66]%N) then Some 2%N
          else None in
        match radix with
        | Some b =>
            match digits b l' with
            | (ds, []) => Some (value b ds)
            | _ => None
            end
        | None => None
        end
      else None
  | _ => None
  end.

(** Round the positive rational [p / q] to the nearest double, ties to
    even: [Some (m, e)] is the double [m * 2^e], [None] is an overflow to
    infinity. *)
Definition round_to_double (p q : Z) : option (Z * Z) :=
  let l0 := (Z.log2 p - Z.log2 q)%Z in
  let below :=
    if (0 <=? l0)%Z then (p <? q * 2 ^ l0)%Z else (p * 2 ^ (- l0) <? q)%Z in
  let l := if below then (l0 - 1)%Z else l0 in
  let e := Z.max (l - 52) (-1074) in
  let num := if (0 <=? e)%Z then p else (p * 2 ^ (- e))%Z in
  let den := if (0 <=? e)%Z then (q * 2 ^ e)%Z else q in
  let '(quot, rem) := Z.div_eucl num den in
  let m :=
    if (2 * rem <? den)%Z then quot
    else if (den <? 2 * rem)%Z then (quot + 1)%Z
    else if Z.even quot then quot else (quot + 1)%Z in
  if (0 <=? e)%Z && (2 ^ 1024 <=? m * 2 ^ e)%Z then None else Some (m, e).

Definition number_of (negative : bool) (v : MV) : Number :=
  match v with
  | not_a_literal => NaN
  | infinity => OtherNumber
  | decimal 0 _ => Index 0
  | decimal m e =>
      let p := if (0 <=? e)%Z then (Z.of_N m * 10 ^ e)%Z else Z.of_N m in
      let q := if (0 <=? e)%Z then 1%Z else (10 ^ (- e))%Z in
      match round_to_double p q with
      | None => OtherNumber
      | Some (0%Z, _) => Index 0
      | Some (m2, e2) =>
          if negative then OtherNumber
          else if (0 <=? e2)%Z then Index (Z.to_N (m2 * 2 ^ e2))
          else if (m2 mod 2 ^ (- e2) =? 0)%Z then Index (Z.to_N (m2 / 2 ^ (- e2)))
          else OtherNumber
      end
  end.

Definition ToNumber (s : string) : Number :=
  match trim (String.list_ascii_of_string s) with
  | [] => Index 0
  | (c :: l') as l =>
      match non_decimal l with
      | Some n => number_of false (decimal n 0)
      | None =>
          if bool_decide (code c = 43%N) then number_of false (unsigned_decimal l')
          else if bool_decide (code c = 45%N) then number_of true (unsigned_decimal l')
          else number_of false (unsigned_decimal l)
      end
  end.

End StringToNumber.

(** ** Data model *)

(** Modelled from the spec: the [metadata] of a connection handle, an identity
    claim and optional credentials (declared in [./types]). *)
Record ClientMetadata := {
  playerID : PlayerID;
  credentials : Credentials;
}.

(** Modelled from the spec: a connection handle (the [Client] of [./types]).
    JavaScript compares handles by reference: [ref] is the identity of the
    object, so two handles carrying the same metadata are still different keys
    of the registry.  The host never writes to a handle; its metadata is fixed
    when the transport creates it.  Its [send] capability shows up as the
    [ClientSend] event. *)
Record Client := {
  ref : nat;
  metadata : ClientMetadata;
}.

#[global] Instance ClientMetadata_eq_dec : EqDecision ClientMetadata.
Proof. solve_decision. Defined.
#[global] Instance Client_eq_dec : EqDecision Client.
Proof. solve_decision. Defined.

Module Server.

(** Modelled from the spec: the per-player entry of the persisted match
    metadata, [{ credentials?: string, ... }] (its declaration lives in
    boardgame.io); the fields the host never names are kept as an opaque
    list of own properties. *)
Record PlayerMetadata := {
  credentials : Credentials;
  player_rest : list (string * string);
}.

(** Modelled from the spec: the persisted match metadata, a table of player
    slots plus fields the host only copies. *)
Record MatchData := {
  players : gmap N PlayerMetadata;
  match_rest : list (string * string);
}.

End Server.

(** [{ ...player, credentials }] *)
Definition with_credentials (player : Server.PlayerMetadata) (c : Credentials)
  : Server.PlayerMetadata :=
  {| Server.credentials := c; Server.player_rest := Server.player_rest player |}.

(** [{ ...metadata, players }] *)
Definition with_players (md : Server.MatchData)
    (ps : gmap N Server.PlayerMetadata) : Server.MatchData :=
  {| Server.players := ps; Server.match_rest := Server.match_rest md |}.

(** Modelled from the spec: the match store [P2PDB] of [./db], a key-value
    table from match identifiers to metadata with [fetch], [setMetadata] and
    [createMatch].  The match state it also holds is never read by the host
    and is left out. *)
Module P2PDB.
Abbreviation t := (gmap string Server.MatchData).
Definition empty : t := ∅.
Definition fetch (db : t) (matchID : string) : option Server.MatchData :=
  db !! matchID.
Definition setMetadata (db : t) (matchID : string) (md : Server.MatchData) : t :=
  <[matchID := md]> db.
Definition createMatch (db : t) (matchID : string) (md : Server.MatchData) : t :=
  <[matchID := md]> db.
End P2PDB.

(** ** The registry: a [Map<Client, Client>] from each handle to itself

    A JavaScript [Map] iterates in insertion order, [set] on a present key
    keeps its position, and [delete] on an absent key does nothing. *)
Module ClientMap.
Abbreviation t := (list Client).
Definition empty : t := [].
Definition set (c : Client) (m : t) : t :=
  if decide (c ∈ m) then m else m ++ [c].
Definition delete (c : Client) (m : t) : t :=
  filter (λ x, x ≠ c) m.
End ClientMap.

(** ** The host and its effects *)

Section Host.

(** Payloads and action arguments are opaque to the host. *)
Variable Value : Type.

(** [getFilterPlayerView(game)], the per-player view filter. *)
Variable filterPlayerView : PlayerID → Value → Value.

(** Unary plus on a string ([+playerID]), ECMAScript's [ToNumber]. *)
Variable ToNumber : string → Number.

(** The calls a method makes on its collaborators.  [ClientSend c v] is
    [c.send(v)], [SetMetadata] is the store's [setMetadata], the three
    [On...] events and [OnConnectionChange] are the master's entry points. *)
Inductive Event :=
  | ConsoleError (message : string)
  | SetMetadata (matchID : string) (md : Server.MatchData)
  | FilterPlayerView (playerID : PlayerID) (data : Value)
  | ClientSend (client : Client) (payload : Value)
  | OnConnectionChange (matchID : string) (playerID : PlayerID)
                       (credentials : Credentials) (connected : bool)
  | OnUpdate (args : list Value)
  | OnChatMessage (args : list Value)
  | OnSync (args : list Value).

Inductive Exception :=
  | Error (message : string)
  | TypeError.

Inductive Completion (A : Type) :=
  | Normal (a : A)
  | Throw (e : Exception).
Arguments Normal {A} a.
Arguments Throw {A} e.

Record P2PHost := {
  clients : ClientMap.t;
  matchID : string;
  db : P2PDB.t;
}.

Record Outcome (A : Type) := {
  completion : Completion A;
  after : P2PHost;
  emitted : list Event;
}.
Arguments completion {A} o.
Arguments after {A} o.
Arguments emitted {A} o.

Definition M (A : Type) := P2PHost → Outcome A.

Definition ret {A} (a : A) : M A :=
  λ h, {| completion := Normal a; after := h; emitted := [] |}.

Definition throw {A} (e : Exception) : M A :=
  λ h, {| completion := Throw e; after := h; emitted := [] |}.

Definition bind {A B} (m : M A) (k : A → M B) : M B :=
  λ h,
    let o := m h in
    match completion o with
    | Normal a =>
        let o' := k a (after o) in
        {| completion := completion o'; after := after o';
           emitted := emitted o ++ emitted o' |}
    | Throw e =>
        {| completion := Throw e; after := after o; emitted := emitted o |}
    end.

Definition emit (e : Event) : M unit :=
  λ h, {| completion := Normal tt; after := h; emitted := [e] |}.

Definition get : M P2PHost :=
  λ h, {| completion := Normal h; after := h; emitted := [] |}.

Definition put (h' : P2PHost) : M unit :=
  λ _, {| completion := Normal tt; after := h'; emitted := [] |}.

#[global] Instance M_ret : MRet M := @ret.
#[global] Instance M_bind : MBind M := λ A B k m, bind m k.

(** [for (const [x] of xs) body(x)] *)
Fixpoint for_of {X} (xs : list X) (body : X → M unit) : M unit :=
  match xs with
  | [] => ret tt
  | x :: xs' => body x;; for_of xs' body
  end.

(** [this.db.setMetadata(this.matchID, md)] *)
Definition db_setMetadata (md : Server.MatchData) : M unit :=
  h ← get;
  put {| clients := clients h; matchID := matchID h;
         db := P2PDB.setMetadata (db h) (matchID h) md |};;
  emit (SetMetadata (matchID h) md).

(** [authenticateClient], lines 81-114.  [fetch] yields an object whose
    [metadata] is [undefined] for an unknown match; reading [.players] of it
    is a [TypeError], reached only after the two null checks. *)
Definition authenticateClient (client : Client) : M bool :=
  let playerID := playerID (metadata client) in
  let credentials := credentials (metadata client) in
  h ← get;
  let fetched := P2PDB.fetch (db h) (matchID h) in
  match playerID with
  | pid_null | pid_undefined => ret true
  | pid_string s =>
      match fetched with
      | None => throw TypeError
      | Some metadata =>
          match property_key (ToNumber s) with
          | None => ret true
          | Some slot =>
              match Server.players metadata !! slot with
              | None => ret true
              | Some player =>
                  let existingCredentials := Server.credentials player in
                  if negb (truthy existingCredentials) && truthy credentials
                  then
                    db_setMetadata
                      (with_players metadata
                         (<[slot := with_credentials player credentials]>
                            (Server.players metadata)));;
                    ret true
                  else if negb (truthy existingCredentials)
                          && negb (truthy credentials)
                  then ret true
                  else ret (strict_eq credentials existingCredentials)
              end
          end
      end
  end.

(** The [send] sink handed to the master, lines 52-57: the view is computed
    once, before the loop. *)
Definition send (target : PlayerID) (data : Value) : M unit :=
  emit (FilterPlayerView target data);;
  let playerView := filterPlayerView target data in
  h ← get;
  for_of (clients h) (λ client,
    if bool_decide (playerID (metadata client) = target)
    then emit (ClientSend client playerView)
    else ret tt).

(** The [sendAll] sink, lines 58-63: the view is computed inside the loop. *)
Definition sendAll (data : Value) : M unit :=
  h ← get;
  for_of (clients h) (λ client,
    emit (FilterPlayerView (playerID (metadata client)) data);;
    let playerView := filterPlayerView (playerID (metadata client)) data in
    emit (ClientSend client playerView)).

(** [registerClient], lines 67-74.  The call of [master.onConnectionChange]
    is recorded as an event; what the master goes on to do is its own. *)
Definition registerClient (client : Client) : M unit :=
  isAuthenticated ← authenticateClient client;
  if negb isAuthenticated then ret tt
  else
    h ← get;
    put {| clients := ClientMap.set client (clients h);
           matchID := matchID h; db := db h |};;
    emit (OnConnectionChange (matchID h) (playerID (metadata client))
            (credentials (metadata client)) true).

(** [unregisterClient], lines 116-120; the master is called as in
    [registerClient]. *)
Definition unregisterClient (client : Client) : M unit :=
  h ← get;
  put {| clients := ClientMap.delete client (clients h);
         matchID := matchID h; db := db h |};;
  emit (OnConnectionChange (matchID h) (playerID (metadata client))
          (credentials (metadata client)) false).

(** Modelled from the spec: an inbound message (the [ClientAction] of
    [./types]), a tag and positional arguments.  The code reads the tag as
    [data.type]; it is whatever the peer sent. *)
Record ClientAction := {
  type : string;
  args : list Value;
}.

(** [processAction], lines 122-134; the [switch] has no default case. *)
Definition processAction (data : ClientAction) : M unit :=
  if String.eqb (type data) "update" then emit (OnUpdate (args data))
  else if String.eqb (type data) "chat" then emit (OnChatMessage (args data))
  else if String.eqb (type data) "sync" then emit (OnSync (args data))
  else ret tt.

(** *** Construction *)

(** The game definition; the constructor reads its [name] and hands the rest
    to boardgame.io. *)
Variable Game : Type.
Variable name : Game → option string.

(** What boardgame.io's [createMatch] returns: an object with a
    [setupDataError] property, or the new match. *)
Inductive CreateMatchResult :=
  | setupDataError (message : string)
  | NewMatch (metadata : Server.MatchData).

(** [createMatch({ game, numPlayers, unlisted: false, setupData: undefined })];
    the call is not guarded, so it may also throw. *)
Variable createMatch : Game → nat → Completion CreateMatchResult.

Definition default_name_warning : string :=
  let quote := String (Ascii.ascii_of_nat 34) EmptyString in
  let newline := String (Ascii.ascii_of_nat 10) EmptyString in
  "Using " ++ quote ++ "default" ++ quote ++ " as your game name." ++ newline
  ++ "Please set the `name` property of your game definition "
  ++ "to a unique string to help avoid peer ID conflicts.".

Record Construction := {
  constructed : Completion P2PHost;
  logged : list Event;
}.

(** The constructor, lines 17-65; [numPlayers] defaults to 2. *)
Definition constructor (game : Game) (numPlayers : option nat)
    (matchID : string) : Construction :=
  let numPlayers := default 2 numPlayers in
  let warning :=
    if negb (truthy (name game)) || strict_eq (name game) (Some "default")
    then [ConsoleError default_name_warning]
    else [] in
  match createMatch game numPlayers with
  | Throw e => {| constructed := Throw e; logged := warning |}
  | Normal (setupDataError message) =>
      {| constructed := Throw (Error ("setupData Error: " ++ message));
         logged := warning |}
  | Normal (NewMatch metadata) =>
      {| constructed :=
           Normal {| clients := ClientMap.empty; matchID := matchID;
                     db := P2PDB.createMatch P2PDB.empty matchID metadata |};
         logged := warning |}
  end.

(** *** Runs of the host

    What can happen to a host once built: the transport calls the three
    public methods, the master calls the two sinks; [AuthenticateClient] is
    the private gate on its own. *)
Inductive Call :=
  | RegisterClient (client : Client)
  | UnregisterClient (client : Client)
  | AuthenticateClient (client : Client)
  | ProcessAction (data : ClientAction)
  | Send (target : PlayerID) (data : Value)
  | SendAll (data : Value).

Definition call (c : Call) : M unit :=
  match c with
  | RegisterClient client => registerClient client
  | UnregisterClient client => unregisterClient client
  | AuthenticateClient client => authenticateClient client;; ret tt
  | ProcessAction data => processAction data
  | Send target data => send target data
  | SendAll data => sendAll data
  end.

Definition run (cs : list Call) : M unit := for_of cs call.

End Host.

Arguments Normal {A} a.
Arguments Throw {A} e.
Arguments ConsoleError {Value} message.
Arguments SetMetadata {Value} matchID md.
Arguments FilterPlayerView {Value} playerID data.
Arguments ClientSend {Value} client payload.
Arguments OnConnectionChange {Value} matchID playerID credentials connected.
Arguments OnUpdate {Value} args.
Arguments OnChatMessage {Value} args.
Arguments OnSync {Value} args.
Arguments completion {Value A} o.
Arguments after {Value A} o.
Arguments emitted {Value A} o.
Arguments ret {Value A} a h.
Arguments throw {Value A} e h.
Arguments bind {Value A B} m k h.
Arguments emit {Value} e h.
Arguments get {Value} h.
Arguments put {Value} h' _.
Arguments for_of {Value X} xs body.
Arguments db_setMetadata {Value} md.
Arguments authenticateClient {Value} ToNumber client.
Arguments send {Value} filterPlayerView target data.
Arguments sendAll {Value} filterPlayerView data.
Arguments registerClient {Value} ToNumber client.
Arguments unregisterClient {Value} client.
Arguments type {Value} c.
Arguments args {Value} c.
Arguments processAction {Value} data.
Arguments constructed {Value} c.
Arguments logged {Value} c.
Arguments constructor {Value Game} name createMatch game numPlayers matchID.
Arguments RegisterClient {Value} client.
Arguments UnregisterClient {Value} client.
Arguments AuthenticateClient {Value} client.
Arguments ProcessAction {Value} data.
Arguments Send {Value} target data.
Arguments SendAll {Value} data.
Arguments call {Value} filterPlayerView ToNumber c.
Arguments run {Value} filterPlayerView ToNumber cs.

(** ** Vocabulary of the properties *)

(** The match the host serves, as its store has it. *)
Definition fetched (h : P2PHost) : option Server.MatchData :=
  P2PDB.fetch (db h) (matchID h).

(** The store holds the host's own match: the constructor creates it and no
    method removes it. *)
Definition host_ok (h : P2PHost) : Prop := is_Some (fetched h).

(** The persisted entry of player slot [k], and its credentials. *)
Definition stored (h : P2PHost) (k : N) : option Server.PlayerMetadata :=
  md ← fetched h; Server.players md !! k.

Definition stored_credentials (h : P2PHost) (k : N) : option Credentials :=
  Server.credentials <$> stored h k.

(** The metadata [authenticateClient] writes when it binds slot [k]. *)
Definition bound_to (md : Server.MatchData) (k : N)
    (player : Server.PlayerMetadata) (creds : Credentials) : Server.MatchData :=
  with_players md (<[k := with_credentials player creds]> (Server.players md)).

(** The player slot a handle claims, if its [playerID] casts to a slot key. *)
Definition claimed_key (ToNumber : string → Number) (c : Client) : option N :=
  match playerID (metadata c) with
  | pid_string s => property_key (ToNumber s)
  | pid_null | pid_undefined => None
  end.

(** The ways [authenticateClient] can go, read off its branches. *)
Inductive Verdict {Value : Type} (ToNumber : string → Number)
    (c : Client) (h : P2PHost) : Outcome Value bool → Prop :=
  | verdict_nullish :
      playerID (metadata c) = pid_null ∨ playerID (metadata c) = pid_undefined →
      Verdict ToNumber c h (ret true h)
  | verdict_unknown_match s :
      playerID (metadata c) = pid_string s →
      fetched h = None →
      Verdict ToNumber c h (throw TypeError h)
  | verdict_no_slot s md :
      playerID (metadata c) = pid_string s →
      fetched h = Some md →
      (∀ k, property_key (ToNumber s) = Some k → Server.players md !! k = None) →
      Verdict ToNumber c h (ret true h)
  | verdict_bind md k player :
      fetched h = Some md →
      claimed_key ToNumber c = Some k →
      Server.players md !! k = Some player →
      truthy (Server.credentials player) = false →
      truthy (credentials (metadata c)) = true →
      Verdict ToNumber c h
        {| completion := Normal true;
           after := {| clients := clients h; matchID := matchID h;
                       db := P2PDB.setMetadata (db h) (matchID h)
                               (bound_to md k player (credentials (metadata c))) |};
           emitted := [SetMetadata (matchID h)
                         (bound_to md k player (credentials (metadata c)))] |}
  | verdict_anonymous md k player :
      fetched h = Some md →
      claimed_key ToNumber c = Some k →
      Server.players md !! k = Some player →
      truthy (Server.credentials player) = false →
      truthy (credentials (metadata c)) = false →
      Verdict ToNumber c h (ret true h)
  | verdict_compare md k player :
      fetched h = Some md →
      claimed_key ToNumber c = Some k →
      Server.players md !! k = Some player →
      truthy (Server.credentials player) = true →
      Verdict ToNumber c h
        (ret (strict_eq (credentials (metadata c)) (Server.credentials player)) h).

(** The hosts there are: what the constructor returns, and what a call
    leaves behind. *)
Inductive Reachable {Value Game : Type}
    (filterPlayerView : PlayerID → Value → Value) (ToNumber : string → Number)
    (name : Game → option string)
    (createMatch : Game → nat → Completion CreateMatchResult)
    : P2PHost → Prop :=
  | reachable_new game numPlayers mid h :
      constructed (constructor (Value := Value) name createMatch game numPlayers mid)
      = Normal h →
      Reachable filterPlayerView ToNumber name createMatch h
  | reachable_call cl h :
      Reachable filterPlayerView ToNumber name createMatch h →
      Reachable filterPlayerView ToNumber name createMatch
        (after (call filterPlayerView ToNumber cl h)).

Section Traces.

Context {Value : Type}.

(** The payloads handed to [client.send], in order. *)
Fixpoint deliveries (client : Client) (evs : list (Event Value)) : list Value :=
  match evs with
  | ClientSend c v :: evs' =>
      if decide (c = client) then v :: deliveries client evs'
      else deliveries client evs'
  | _ :: evs' => deliveries client evs'
  | [] => []
  end.

(** How many times some client's [send] was invoked. *)
Fixpoint send_calls (evs : list (Event Value)) : nat :=
  match evs with
  | ClientSend _ _ :: evs' => S (send_calls evs')
  | _ :: evs' => send_calls evs'
  | [] => 0
  end.

(** How many times the view filter was invoked. *)
Fixpoint filter_calls (evs : list (Event Value)) : nat :=
  match evs with
  | FilterPlayerView _ _ :: evs' => S (filter_calls evs')
  | _ :: evs' => filter_calls evs'
  | [] => 0
  end.

(** The metadata values written to the store. *)
Fixpoint writes (evs : list (Event Value)) : list Server.MatchData :=
  match evs with
  | SetMetadata _ md :: evs' => md :: writes evs'
  | _ :: evs' => writes evs'
  | [] => []
  end.

(** Every payload sent is the output of the latest filter invocation, and
    that invocation was keyed by the recipient's own [playerID]: [last] is
    the latest invocation so far. *)
Fixpoint views_keyed_by_recipient (filterPlayerView : PlayerID → Value → Value)
    (last : option (PlayerID * Value)) (evs : list (Event Value)) : Prop :=
  match evs with
  | FilterPlayerView p d :: evs' =>
      views_keyed_by_recipient filterPlayerView (Some (p, d)) evs'
  | ClientSend c v :: evs' =>
      match last with
      | Some (p, d) =>
          p = playerID (metadata c) ∧ v = filterPlayerView p d
      | None => False
      end
      ∧ views_keyed_by_recipient filterPlayerView last evs'
  | _ :: evs' => views_keyed_by_recipient filterPlayerView last evs'
  | [] => True
  end.

End Traces.

(** A registered handle that brings credentials for an existing slot brings
    the ones the slot is bound to. *)
Definition registry_sound (ToNumber : string → Number) (h : P2PHost) : Prop :=
  ∀ c k player,
    c ∈ clients h →
    claimed_key ToNumber c = Some k →
    stored h k = Some player →
    truthy (credentials (metadata c)) = true →
    Server.credentials player = credentials (metadata c).

(** The handles whose [send] was invoked, in order. *)
Fixpoint recipients {Value : Type} (evs : list (Event Value)) : list Client :=
  match evs with
  | ClientSend c _ :: evs' => c :: recipients evs'
  | _ :: evs' => recipients evs'
  | [] => []
  end.

(** How many player slots of a match hold no (truthy) credentials. *)
Definition unbound_slots (md : Server.MatchData) : nat :=
  size (filter (λ kv, truthy (Server.credentials kv.2) = false)
          (Server.players md)).

Definition unbound (h : P2PHost) : nat :=
  from_option unbound_slots 0 (fetched h).

(** What can have happened to the credentials of a player slot between two
    states of the store: nothing, or a slot that held none was given some.
    The slot itself is there in both states or in neither. *)
Definition slot_evolves (p p' : option Server.PlayerMetadata) : Prop :=
  match p, p' with
  | Some a, Some b =>
      Server.credentials b = Server.credentials a
      ∨ (truthy (Server.credentials a) = false
         ∧ truthy (Server.credentials b) = true)
  | None, None => True
  | _, _ => False
  end.

Definition evolves (md md' : Server.MatchData) : Prop :=
  ∀ k, slot_evolves (Server.players md !! k) (Server.players md' !! k).

(** The match an event is about, for the events that name one. *)
Definition event_match {Value : Type} (e : Event Value) : option string :=
  match e with
  | SetMetadata m _ => Some m
  | OnConnectionChange m _ _ _ => Some m
  | _ => None
  end.

(** ** A two-player match to run the host on *)
Module Fixture.

Definition Value := string.

(** A filter whose output depends on the recipient. *)
Definition filterPlayerView (p : PlayerID) (data : Value) : Value :=
  match p with
  | pid_string s => (s ++ " sees " ++ data)%string
  | pid_null | pid_undefined => ("spectators see " ++ data)%string
  end.

(** A game definition: its name, and the complaint its [validateSetupData]
    has about [undefined] setup data, if any. *)
Record Game := {
  name : option string;
  validateSetupData : option string;
}.

Definition new_player (i : nat) : N * Server.PlayerMetadata :=
  (N.of_nat i, {| Server.credentials := None; Server.player_rest := [] |}).

Fixpoint has_space (s : string) : bool :=
  match s with
  | String c s' => bool_decide (c = Ascii.ascii_of_nat 32) || has_space s'
  | EmptyString => false
  end.

(** A stand-in for boardgame.io's [createMatch]: zero players count as two, a
    complaint of the game is a setup data error, a game name with a space is
    thrown as an error, and otherwise there is one empty slot per player. *)
Definition createMatch (game : Game) (numPlayers : nat)
  : Completion CreateMatchResult :=
  let numPlayers := if decide (numPlayers = 0) then 2 else numPlayers in
  match validateSetupData game with
  | Some complaint => Normal (setupDataError complaint)
  | None =>
      let gameName := default "default" (name game) in
      if has_space gameName
      then Throw (Error (gameName ++ " is not a valid name"))
      else
        Normal (NewMatch
          {| Server.players := list_to_map (new_player <$> seq 0 numPlayers);
             Server.match_rest := [("gameName", gameName)] |})
  end.

Definition tictactoe : Game :=
  {| name := Some "tic-tac-toe"; validateSetupData := None |}.

Definition unnamed : Game := {| name := None; validateSetupData := None |}.

Definition picky : Game :=
  {| name := Some "picky"; validateSetupData := Some "setupData required" |}.

Definition spaced : Game :=
  {| name := Some "tic tac toe"; validateSetupData := None |}.

Definition construct (game : Game) :=
  constructor (Value := Value) name createMatch game None "m1".

Definition fresh : P2PHost :=
  match constructed (construct tictactoe) with
  | Normal h => h
  | Throw _ => {| clients := []; matchID := "m1"; db := ∅ |}
  end.

Definition handle (r : nat) (p : PlayerID) (c : Credentials) : Client :=
  {| ref := r; metadata := {| playerID := p; credentials := c |} |}.

Definition alice := handle 1 (pid_string "0") (Some "c0").
Definition alice_again := handle 2 (pid_string "0") (Some "c0").
Definition mallory := handle 3 (pid_string "0") (Some "wrong").
Definition early_bird := handle 4 (pid_string "0") None.
Definition bob := handle 5 (pid_string "1") (Some "c1").
Definition watcher := handle 6 pid_undefined (Some "anything").
Definition stranger := handle 7 (pid_string "abc") None.
Definition latecomer := handle 8 (pid_string "7") (Some "c7").
Definition blank := handle 9 (pid_string "1") (Some "").

Definition authenticate := authenticateClient (Value := Value) StringToNumber.ToNumber.
Definition register := registerClient (Value := Value) StringToNumber.ToNumber.
Definition play := run filterPlayerView StringToNumber.ToNumber.

(** Player 0 has bound ["c0"]. *)
Definition bound : P2PHost := after (play [RegisterClient alice] fresh).

(** A handle claimed slot 0 without credentials before player 0 bound it. *)
Definition crowded : P2PHost :=
  after (play [RegisterClient early_bird; RegisterClient alice] fresh).

(** Player 0 is attached twice. *)
Definition doubled : P2PHost :=
  after (play [RegisterClient alice; RegisterClient alice_again;
               RegisterClient bob] fresh).

(** A store in which slot 1 holds the empty string as its credentials. *)
Definition blanked : P2PHost :=
  {| clients := []; matchID := "m1";
     db := {[ "m1" :=
       {| Server.players :=
            {[ 0%N := {| Server.credentials := None; Server.player_rest := [] |};
               1%N := {| Server.credentials := Some ""; Server.player_rest := [] |} ]};
          Server.match_rest := [] |} ]} |}.

Definition unset : Server.PlayerMetadata :=
  {| Server.credentials := None; Server.player_rest := [] |}.

End Fixture.

(** * Properties *)

Section Properties.

Context {Value Game : Type}.
Variable filterPlayerView : PlayerID → Value → Value.
Variable ToNumber : string → Number.
Variable name : Game → option string.
Variable createMatch : Game → nat → Completion CreateMatchResult.

Implicit Types (h : P2PHost) (c : Client) (k : N) (md : Server.MatchData).
Implicit Types (evs : list (Event Value)).

Local Abbreviation authenticate := (authenticateClient (Value := Value) ToNumber).
Local Abbreviation register := (registerClient (Value := Value) ToNumber).
Local Abbreviation unregister := (unregisterClient (Value := Value)).
Local Abbreviation play := (run filterPlayerView ToNumber).
Local Abbreviation step := (call filterPlayerView ToNumber).
Local Abbreviation new := (constructor (Value := Value) name createMatch).

(** ** The monad *)

Lemma host_eta h :
  {| clients := clients h; matchID := matchID h; db := db h |} = h.
Proof. by destruct h. Qed.

Lemma bind_normal {A B} (m : M Value A) (f : A → M Value B) h a :
  completion (m h) = Normal a →
  bind m f h =
    {| completion := completion (f a (after (m h)));
       after := after (f a (after (m h)));
       emitted := emitted (m h) ++ emitted (f a (after (m h))) |}.
Proof. intros E. unfold bind. by rewrite E. Qed.

Lemma bind_throw {A B} (m : M Value A) (f : A → M Value B) h e :
  completion (m h) = Throw e →
  bind m f h =
    {| completion := Throw e; after := after (m h); emitted := emitted (m h) |}.
Proof. intros E. unfold bind. by rewrite E. Qed.

(** A loop whose body only emits: the host is untouched and the emissions
    are concatenated in iteration order. *)
Lemma for_of_emits {X} (xs : list X) (body : X → M Value unit)
    (out : X → list (Event Value)) h :
  (∀ x, body x h = {| completion := Normal tt; after := h; emitted := out x |}) →
  for_of xs body h =
    {| completion := Normal tt; after := h; emitted := concat (out <$> xs) |}.
Proof.
  intros Hbody. induction xs as [|x xs IH]; [done|].
  simpl. unfold mbind, M_bind.
  rewrite (bind_normal _ _ _ tt); rewrite Hbody; [|done]. simpl.
  rewrite IH. done.
Qed.

(** ** The store *)

Lemma fetched_setMetadata h md :
  fetched {| clients := clients h; matchID := matchID h;
             db := P2PDB.setMetadata (db h) (matchID h) md |} = Some md.
Proof. unfold fetched, P2PDB.fetch, P2PDB.setMetadata. simpl. apply lookup_insert_eq. Qed.

(** ** The gate, case by case *)

Lemma authenticate_nullish c h :
  playerID (metadata c) = pid_null ∨ playerID (metadata c) = pid_undefined →
  authenticate c h = ret true h.
Proof. unfold authenticateClient. by intros [-> | ->]. Qed.

Lemma authenticate_unknown_match c h s :
  playerID (metadata c) = pid_string s → fetched h = None →
  authenticate c h = throw TypeError h.
Proof.
  unfold authenticateClient, fetched. intros -> E.
  unfold mbind, M_bind, bind. simpl. by rewrite E.
Qed.

Lemma authenticate_no_slot c h md :
  fetched h = Some md →
  (∀ k, claimed_key ToNumber c = Some k → Server.players md !! k = None) →
  authenticate c h = ret true h.
Proof.
  unfold authenticateClient, fetched, claimed_key. intros E Hk.
  destruct (playerID (metadata c)) as [| |s]; [done..|].
  unfold mbind, M_bind, bind. simpl. rewrite E.
  destruct (property_key (ToNumber s)) as [k|]; [|done].
  by rewrite (Hk k eq_refl).
Qed.

Lemma authenticate_slot c h md k player :
  fetched h = Some md →
  claimed_key ToNumber c = Some k →
  Server.players md !! k = Some player →
  authenticate c h =
    if negb (truthy (Server.credentials player)) && truthy (credentials (metadata c))
    then
      {| completion := Normal true;
         after := {| clients := clients h; matchID := matchID h;
                     db := P2PDB.setMetadata (db h) (matchID h)
                             (bound_to md k player (credentials (metadata c))) |};
         emitted := [SetMetadata (matchID h)
                       (bound_to md k player (credentials (metadata c)))] |}
    else if negb (truthy (Server.credentials player))
            && negb (truthy (credentials (metadata c)))
    then ret true h
    else ret (strict_eq (credentials (metadata c)) (Server.credentials player)) h.
Proof.
  unfold authenticateClient, fetched, claimed_key. intros E Hk Hp.
  destruct (playerID (metadata c)) as [| |s]; [done..|].
  unfold mbind, M_bind, bind. simpl. rewrite E, Hk, Hp.
  destruct (negb (truthy (Server.credentials player))
            && truthy (credentials (metadata c))); [done|].
  by destruct (negb (truthy (Server.credentials player))
               && negb (truthy (credentials (metadata c)))).
Qed.

Lemma authenticate_verdict c h : Verdict ToNumber c h (authenticate c h).
Proof.
  destruct (playerID (metadata c)) as [| |s] eqn:Hpid.
  - rewrite authenticate_nullish by auto. constructor; auto.
  - rewrite authenticate_nullish by auto. constructor; auto.
  - destruct (fetched h) as [md|] eqn:Hmd.
    2: { rewrite (authenticate_unknown_match c h s) by done. by econstructor. }
    destruct (claimed_key ToNumber c) as [k|] eqn:Hk.
    2: { rewrite (authenticate_no_slot c h md); [|done|congruence].
         eapply verdict_no_slot; [done..|].
         unfold claimed_key in Hk. rewrite Hpid in Hk. congruence. }
    destruct (Server.players md !! k) as [player|] eqn:Hp.
    2: { rewrite (authenticate_no_slot c h md); [|done|congruence].
         eapply verdict_no_slot; [done..|].
         unfold claimed_key in Hk. rewrite Hpid in Hk. congruence. }
    rewrite (authenticate_slot c h md k player) by done.
    destruct (truthy (Server.credentials player)) eqn:He; simpl.
    + by eapply verdict_compare.
    + destruct (truthy (credentials (metadata c))) eqn:Hc; simpl.
      * by eapply verdict_bind.
      * by eapply verdict_anonymous.
Qed.

Lemma bind_get {B} (f : P2PHost → M Value B) h : bind get f h = f h h.
Proof. unfold bind. simpl. by destruct (f h h). Qed.

Lemma bind_emit {B} (e : Event Value) (f : unit → M Value B) h :
  bind (emit e) f h =
    {| completion := completion (f tt h); after := after (f tt h);
       emitted := e :: emitted (f tt h) |}.
Proof. done. Qed.

(** ** What the gate leaves alone *)

Lemma stored_after_binding h md k player creds j :
  stored {| clients := clients h; matchID := matchID h;
            db := P2PDB.setMetadata (db h) (matchID h) (bound_to md k player creds) |} j
  = if decide (k = j) then Some (with_credentials player creds)
    else Server.players md !! j.
Proof.
  unfold stored. rewrite fetched_setMetadata. simpl.
  apply lookup_insert.
Qed.

Lemma authenticate_registry c h :
  clients (after (authenticate c h)) = clients h
  ∧ matchID (after (authenticate c h)) = matchID h.
Proof. by destruct (authenticate_verdict c h). Qed.

Lemma authenticate_host_ok c h : host_ok h → host_ok (after (authenticate c h)).
Proof.
  intros Hok. destruct (authenticate_verdict c h); try done.
  cbn [after]. unfold host_ok. rewrite fetched_setMetadata. by eexists.
Qed.

Lemma authenticate_returns c h :
  host_ok h → ∃ b, completion (authenticate c h) = Normal b.
Proof.
  intros [md Hmd]. destruct (authenticate_verdict c h); simpl; eauto.
  congruence.
Qed.

(** Once a slot holds truthy credentials the gate never writes to it. *)
Lemma authenticate_keeps_binding c h k cr :
  stored_credentials h k = Some cr → truthy cr = true →
  stored_credentials (after (authenticate c h)) k = Some cr.
Proof.
  intros Hs Ht.
  destruct (authenticate_verdict c h) as [| | |md k' player Hmd Hk Hp He Hc| |];
    try done.
  cbn [after]. unfold stored_credentials in *. rewrite stored_after_binding.
  unfold stored in Hs. rewrite Hmd in Hs. simpl in Hs.
  case_decide as Hkk; [|done].
  subst k'. rewrite Hp in Hs. simpl in Hs. congruence.
Qed.

(** The gate neither adds nor removes a player slot. *)
Lemma authenticate_keeps_slots c h k :
  is_Some (stored (after (authenticate c h)) k) ↔ is_Some (stored h k).
Proof.
  destruct (authenticate_verdict c h) as [| | |md k' player Hmd Hk Hp He Hc| |];
    try done.
  cbn [after]. rewrite stored_after_binding. unfold stored. rewrite Hmd. simpl.
  case_decide; [subst; rewrite Hp; split; eauto | done].
Qed.

(** ** The methods, as equations *)

Lemma register_eq c h :
  register c h =
    let o := authenticate c h in
    match completion o with
    | Normal true =>
        {| completion := Normal tt;
           after := {| clients := ClientMap.set c (clients (after o));
                       matchID := matchID (after o); db := db (after o) |};
           emitted := emitted o ++
             [OnConnectionChange (matchID (after o)) (playerID (metadata c))
                (credentials (metadata c)) true] |}
    | Normal false =>
        {| completion := Normal tt; after := after o; emitted := emitted o |}
    | Throw e =>
        {| completion := Throw e; after := after o; emitted := emitted o |}
    end.
Proof.
  unfold registerClient, mbind, M_bind, bind.
  destruct (authenticate c h) as [[[|]|e] h' evs]; simpl; [done| |done].
  by rewrite app_nil_r.
Qed.

Lemma unregister_eq c h :
  unregister c h =
    {| completion := Normal tt;
       after := {| clients := ClientMap.delete c (clients h);
                   matchID := matchID h; db := db h |};
       emitted := [OnConnectionChange (matchID h) (playerID (metadata c))
                     (credentials (metadata c)) false] |}.
Proof. done. Qed.

Lemma sendAll_eq data h :
  sendAll filterPlayerView data h =
    {| completion := Normal tt; after := h;
       emitted := concat ((λ c,
         [FilterPlayerView (playerID (metadata c)) data;
          ClientSend c (filterPlayerView (playerID (metadata c)) data)])
         <$> clients h) |}.
Proof.
  unfold sendAll, mbind, M_bind. rewrite bind_get.
  by apply for_of_emits.
Qed.

Lemma send_eq target data h :
  send filterPlayerView target data h =
    {| completion := Normal tt; after := h;
       emitted := FilterPlayerView target data ::
         concat ((λ c,
           if bool_decide (playerID (metadata c) = target)
           then [ClientSend c (filterPlayerView target data)] else [])
           <$> clients h) |}.
Proof.
  unfold send, mbind, M_bind. rewrite bind_emit, bind_get.
  erewrite for_of_emits; [done|].
  intros c. simpl. by case_bool_decide.
Qed.

Lemma processAction_after (a : ClientAction Value) h :
  completion (processAction a h) = Normal tt ∧ after (processAction a h) = h.
Proof.
  unfold processAction.
  by repeat (destruct (String.eqb _ _); [done|]).
Qed.

Lemma authenticate_call_eq c h :
  (authenticate c;; ret tt) h =
    let o := authenticate c h in
    {| completion := match completion o with
                     | Normal _ => Normal tt
                     | Throw e => Throw e
                     end;
       after := after o; emitted := emitted o |}.
Proof.
  unfold mbind, M_bind, bind.
  destruct (authenticate c h) as [[b|e] h' evs]; cbn; [|done].
  by rewrite app_nil_r.
Qed.

(** ** One call at a time *)

(** No call touches the store except through the gate, and none changes the
    match the host serves. *)
Lemma step_store (cl : Call Value) h :
  (∃ c, db (after (step cl h)) = db (after (authenticate c h)))
  ∨ db (after (step cl h)) = db h.
Proof.
  destruct cl as [c|c|c|a|target data|data]; cbn [call].
  - left. exists c. rewrite register_eq. cbn zeta.
    by destruct (completion (authenticate c h)) as [[|]|].
  - by right.
  - left. exists c. by rewrite authenticate_call_eq.
  - right. by rewrite (proj2 (processAction_after a h)).
  - right. by rewrite send_eq.
  - right. by rewrite sendAll_eq.
Qed.

Lemma step_matchID (cl : Call Value) h : matchID (after (step cl h)) = matchID h.
Proof.
  destruct cl as [c|c|c|a|target data|data]; cbn [call].
  - rewrite register_eq. cbn zeta.
    destruct (completion (authenticate c h)) as [[|]|]; cbn [after matchID];
      apply authenticate_registry.
  - done.
  - rewrite authenticate_call_eq. apply authenticate_registry.
  - by rewrite (proj2 (processAction_after a h)).
  - by rewrite send_eq.
  - by rewrite sendAll_eq.
Qed.

Lemma stored_ext h h' k :
  matchID h' = matchID h → db h' = db h → stored h' k = stored h k.
Proof. unfold stored, fetched. by intros -> ->. Qed.

Lemma step_stored (cl : Call Value) h k :
  (∃ c, stored (after (step cl h)) k = stored (after (authenticate c h)) k)
  ∨ stored (after (step cl h)) k = stored h k.
Proof.
  destruct (step_store cl h) as [[c Hc]|Hdb].
  - left. exists c. apply stored_ext; [|done].
    rewrite step_matchID. symmetry. apply authenticate_registry.
  - right. apply stored_ext; [apply step_matchID|done].
Qed.

Lemma step_host_ok (cl : Call Value) h : host_ok h → host_ok (after (step cl h)).
Proof.
  intros Hok. unfold host_ok, fetched.
  rewrite step_matchID.
  destruct (step_store cl h) as [[c ->]| ->]; [|done].
  pose proof (authenticate_host_ok c h Hok) as Hok'.
  unfold host_ok, fetched in Hok'.
  by rewrite (proj2 (authenticate_registry c h)) in Hok'.
Qed.

Lemma step_returns (cl : Call Value) h :
  host_ok h → completion (step cl h) = Normal tt.
Proof.
  intros Hok. destruct cl as [c|c|c|a|target data|data]; cbn [call].
  - rewrite register_eq. cbn zeta.
    destruct (authenticate_returns c h Hok) as [[|] ->]; done.
  - done.
  - rewrite authenticate_call_eq. cbn zeta.
    destruct (authenticate_returns c h Hok) as [b ->]; done.
  - apply processAction_after.
  - by rewrite send_eq.
  - by rewrite sendAll_eq.
Qed.

Lemma step_keeps_binding (cl : Call Value) h k cr :
  stored_credentials h k = Some cr → truthy cr = true →
  stored_credentials (after (step cl h)) k = Some cr.
Proof.
  intros Hs Ht. unfold stored_credentials.
  destruct (step_stored cl h k) as [[c ->]| ->]; [|done].
  by apply authenticate_keeps_binding.
Qed.

(** ** Runs *)

Lemma run_cons (cl : Call Value) cs h :
  play (cl :: cs) h = bind (step cl) (λ _, play cs) h.
Proof. done. Qed.

(** An invariant of every call, with a property of every event a call emits,
    holds along every run, whether or not the run is cut short by a throw. *)
Lemma run_invariant (P : P2PHost → Prop) (Q : Event Value → Prop) :
  (∀ cl h, P h → P (after (step cl h)) ∧ Forall Q (emitted (step cl h))) →
  ∀ cs h, P h → P (after (play cs h)) ∧ Forall Q (emitted (play cs h)).
Proof.
  intros Hstep cs. induction cs as [|cl cs IH]; intros h HP.
  - split; [done|constructor].
  - rewrite run_cons. destruct (Hstep cl h HP) as [HP' HQ].
    destruct (completion (step cl h)) as [[]|e] eqn:Hc.
    + rewrite (bind_normal _ _ _ tt) by done. cbn [after emitted].
      destruct (IH _ HP') as [HP'' HQ'].
      split; [done|]. by apply Forall_app.
    + rewrite (bind_throw _ _ _ e) by done. by cbn [after emitted].
Qed.

Lemma run_host_ok cs h : host_ok h → host_ok (after (play cs h)).
Proof.
  intros Hok.
  apply (run_invariant host_ok (λ _, True)); [|done].
  intros cl h' Hok'. split; [by apply step_host_ok|].
  by apply Forall_forall.
Qed.

Lemma run_returns cs h : host_ok h → completion (play cs h) = Normal tt.
Proof.
  revert h. induction cs as [|cl cs IH]; intros h Hok; [done|].
  rewrite run_cons, (bind_normal _ _ _ tt) by by apply step_returns.
  cbn [completion]. apply IH. by apply step_host_ok.
Qed.

Lemma run_keeps_binding cs h k cr :
  stored_credentials h k = Some cr → truthy cr = true →
  stored_credentials (after (play cs h)) k = Some cr.
Proof.
  intros Hs Ht.
  apply (run_invariant (λ h, stored_credentials h k = Some cr) (λ _, True));
    [|done].
  intros cl h' Hs'. split; [by apply step_keeps_binding|].
  by apply Forall_forall.
Qed.

(** ** Truthiness *)

Lemma truthy_Some s : truthy (Some s) = true ↔ s ≠ "".
Proof.
  unfold truthy. destruct (String.eqb_spec s ""); simpl; split; congruence.
Qed.

Lemma stored_inv h k player :
  stored h k = Some player →
  ∃ md, fetched h = Some md ∧ Server.players md !! k = Some player.
Proof.
  unfold stored. destruct (fetched h) as [md|]; [|done]. simpl. eauto.
Qed.

(** The gate's answer on a slot that is bound. *)
Lemma authenticate_bound c h k cr :
  claimed_key ToNumber c = Some k →
  stored_credentials h k = Some cr → truthy cr = true →
  authenticate c h = ret (strict_eq (credentials (metadata c)) cr) h.
Proof.
  intros Hk Hs Ht. unfold stored_credentials in Hs.
  destruct (stored h k) as [player|] eqn:Hp; [|done].
  simpl in Hs. simplify_eq.
  destruct (stored_inv _ _ _ Hp) as (md & Hmd & Hpl).
  rewrite (authenticate_slot c h md k player) by done.
  by rewrite Ht.
Qed.

(** The gate's effect on a slot that is not bound, for a handle that brings
    credentials. *)
Lemma authenticate_binds c h k player :
  claimed_key ToNumber c = Some k →
  stored h k = Some player →
  truthy (Server.credentials player) = false →
  truthy (credentials (metadata c)) = true →
  completion (authenticate c h) = Normal true
  ∧ stored (after (authenticate c h)) k
    = Some (with_credentials player (credentials (metadata c))).
Proof.
  intros Hk Hp He Hc.
  destruct (stored_inv _ _ _ Hp) as (md & Hmd & Hpl).
  rewrite (authenticate_slot c h md k player) by done.
  rewrite He, Hc. cbn [negb andb completion after].
  split; [done|]. rewrite stored_after_binding. by rewrite decide_True.
Qed.

(** ** C1: credential binding is one-shot *)

(** C1. For a player slot with no stored credentials, an [authenticateClient]
    call for that slot that supplies non-empty credentials returns [true] and
    makes the stored credentials of the slot exactly the supplied value;
    after any further run of calls (registrations, bare authentications,
    and the rest of the interface) the stored credentials of the slot are
    still that value, and an authentication for the slot with non-empty
    credentials returns [true] when they equal the stored string and [false]
    when they differ. *)
Theorem credential_binding_is_one_shot h c k player s :
  claimed_key ToNumber c = Some k →
  stored h k = Some player →
  truthy (Server.credentials player) = false →
  credentials (metadata c) = Some s → s ≠ "" →
  let first := authenticate c h in
  completion first = Normal true
  ∧ stored_credentials (after first) k = Some (Some s)
  ∧ ∀ cs,
      let later := after (play cs (after first)) in
      stored_credentials later k = Some (Some s)
      ∧ ∀ c' s',
          claimed_key ToNumber c' = Some k →
          credentials (metadata c') = Some s' → s' ≠ "" →
          completion (authenticate c' later) = Normal (bool_decide (s' = s))
          ∧ after (authenticate c' later) = later.
Proof.
  intros Hk Hp He Hc Hs first.
  assert (Ht : truthy (Some s) = true) by by apply truthy_Some.
  destruct (authenticate_binds c h k player) as [Hret Hst];
    [done|done|done|by rewrite Hc|].
  assert (Hfirst : stored_credentials (after first) k = Some (Some s)).
  { unfold stored_credentials, first. rewrite Hst, Hc. done. }
  split; [done|]. split; [done|].
  intros cs later.
  assert (Hlater : stored_credentials later k = Some (Some s)).
  { by apply run_keeps_binding. }
  split; [done|].
  intros c' s' Hk' Hc' Hs'.
  rewrite (authenticate_bound c' later k (Some s)) by done.
  cbn [completion after ret]. split; [|done].
  rewrite Hc'. unfold strict_eq. f_equal.
  apply bool_decide_ext. split; congruence.
Qed.

(** ** C2: spectators *)

(** C2. [authenticateClient] returns [true], leaves the host as it was and
    writes nothing, for every handle whose [playerID] is [null] or
    [undefined], whatever its credentials and whatever the store holds; and
    a handle whose [playerID] is not numeric (the cast is [NaN]) or casts to
    a number that indexes no existing player slot is treated the same. *)
Theorem spectators_always_pass c h :
  (playerID (metadata c) = pid_null ∨ playerID (metadata c) = pid_undefined →
   authenticate c h
   = {| completion := Normal true; after := h; emitted := [] |})
  ∧ (∀ s, playerID (metadata c) = pid_string s →
       host_ok h →
       ToNumber s = NaN
       ∨ (∀ k, property_key (ToNumber s) = Some k → stored h k = None) →
       authenticate c h
       = {| completion := Normal true; after := h; emitted := [] |}).
Proof.
  split.
  - apply authenticate_nullish.
  - intros s Hpid [md Hmd] Hs.
    apply (authenticate_no_slot c h md); [done|].
    unfold claimed_key. rewrite Hpid. intros k Hk.
    destruct Hs as [Hnan|Hnone].
    + rewrite Hnan in Hk. done.
    + specialize (Hnone k Hk). unfold stored in Hnone.
      by rewrite Hmd in Hnone.
Qed.

(** ** C7: the side effects of the gate *)

Lemma bound_to_lookup md k player creds j :
  Server.players (bound_to md k player creds) !! j
  = if decide (k = j) then Some (with_credentials player creds)
    else Server.players md !! j.
Proof. unfold bound_to, with_players. simpl. apply lookup_insert. Qed.

(** C7. On a host whose store holds its match, [authenticateClient] never
    throws; it writes the metadata at most once, and when it writes nothing
    the host is exactly as before (so in particular on a rejection and on a
    spectator pass).  A write happens only when the claimed slot exists,
    holds no credentials and the handle supplies some: the call then returns
    [true], and the metadata written replaces the old one in the store and
    differs from it in nothing but the credentials of that slot. *)
Theorem authenticate_effects_are_confined c h :
  host_ok h →
  let o := authenticate c h in
  (∃ b, completion o = Normal b)
  ∧ length (writes (emitted o)) ≤ 1
  ∧ clients (after o) = clients h
  ∧ matchID (after o) = matchID h
  ∧ (writes (emitted o) = [] → after o = h ∧ emitted o = [])
  ∧ (completion o = Normal false → after o = h ∧ emitted o = [])
  ∧ (claimed_key ToNumber c = None → after o = h ∧ emitted o = [])
  ∧ (∀ md', md' ∈ writes (emitted o) →
       completion o = Normal true
       ∧ emitted o = [SetMetadata (matchID h) md']
       ∧ db (after o) = <[matchID h := md']> (db h)
       ∧ ∃ md k player s,
           fetched h = Some md
           ∧ claimed_key ToNumber c = Some k
           ∧ Server.players md !! k = Some player
           ∧ truthy (Server.credentials player) = false
           ∧ credentials (metadata c) = Some s ∧ s ≠ ""
           ∧ Server.match_rest md' = Server.match_rest md
           ∧ (∀ j, j ≠ k → Server.players md' !! j = Server.players md !! j)
           ∧ Server.players md' !! k
             = Some {| Server.credentials := Some s;
                       Server.player_rest := Server.player_rest player |}).
Proof.
  intros Hok o. split; [by apply authenticate_returns|].
  unfold o.
  destruct (authenticate_verdict c h)
    as [Hn|s Hpid Hnone|s md Hpid Hmd Hno|md k player Hmd Hk Hp He Hc
       |md k player Hmd Hk Hp He Hc|md k player Hmd Hk Hp He];
    cbn [ret throw completion after emitted writes length].
  1-3, 5-6: split_and!; try done; try lia; by intros md' ?%elem_of_nil.
  split_and!; try done; try lia.
  - by rewrite Hk.
  - intros md' ->%list_elem_of_singleton.
    split_and!; try done.
    destruct (credentials (metadata c)) as [s|] eqn:Hcs; [|done].
    exists md, k, player, s.
    split_and!; try done.
    + by apply truthy_Some.
    + intros j Hj. rewrite bound_to_lookup. by rewrite decide_False.
    + rewrite bound_to_lookup. by rewrite decide_True.
Qed.

(** ** C10: empty credentials *)

(** C10. The empty string counts as no credentials.  On a slot that holds
    none, a handle supplying the empty string is authorized and nothing is
    written, so the slot stays unbound; and a slot whose stored credentials
    are the empty string is treated as holding none: every handle claiming
    it is authorized, and one that supplies non-empty credentials binds them
    over the empty string. *)
Theorem empty_credentials_behave_as_absent c h k player :
  claimed_key ToNumber c = Some k →
  stored h k = Some player →
  (truthy (Server.credentials player) = false →
   credentials (metadata c) = Some "" →
   authenticate c h
   = {| completion := Normal true; after := h; emitted := [] |})
  ∧ (Server.credentials player = Some "" →
     completion (authenticate c h) = Normal true
     ∧ ∀ s, credentials (metadata c) = Some s → s ≠ "" →
         stored_credentials (after (authenticate c h)) k = Some (Some s)).
Proof.
  intros Hk Hp.
  destruct (stored_inv _ _ _ Hp) as (md & Hmd & Hpl).
  rewrite (authenticate_slot c h md k player) by done.
  split.
  - intros -> ->. done.
  - intros ->. cbn [truthy String.eqb negb andb].
    split.
    + by destruct (truthy (credentials (metadata c))).
    + intros s Hs Hne. rewrite Hs.
      rewrite (proj2 (truthy_Some s)) by done. cbn [after].
      unfold stored_credentials. rewrite stored_after_binding.
      by rewrite decide_True.
Qed.

(** ** C6: unregistering *)

Lemma delete_absent c (m : ClientMap.t) : c ∉ m → ClientMap.delete c m = m.
Proof.
  unfold ClientMap.delete. induction m as [|x m IH]; [done|].
  intros Hc. apply not_elem_of_cons in Hc as [Hne Hc].
  rewrite filter_cons_True by done. by rewrite IH.
Qed.

Lemma delete_removes c (m : ClientMap.t) : c ∉ ClientMap.delete c m.
Proof. unfold ClientMap.delete. rewrite list_elem_of_filter. by intros [? _]. Qed.

Lemma delete_other c c' (m : ClientMap.t) :
  c' ∈ ClientMap.delete c m ↔ c' ≠ c ∧ c' ∈ m.
Proof. unfold ClientMap.delete. by rewrite list_elem_of_filter. Qed.

(** C6. [unregisterClient] always completes normally; a second call on the
    same handle leaves the host, and so the registry, as the first call left
    it; and on a handle that is not registered the call leaves the host as it
    was. *)
Theorem unregister_is_idempotent c h :
  let once := unregisterClient (Value := Value) c h in
  let twice := unregisterClient (Value := Value) c (after once) in
  completion once = Normal tt
  ∧ completion twice = Normal tt
  ∧ (c ∉ clients (after once))
  ∧ clients (after twice) = clients (after once)
  ∧ after twice = after once
  ∧ (c ∉ clients h → clients (after once) = clients h ∧ after once = h).
Proof.
  intros once twice. unfold twice, once. rewrite !unregister_eq.
  cbn [completion after clients matchID db].
  pose proof (delete_removes c (clients h)) as Hgone.
  split_and!; try done.
  - by apply delete_absent.
  - by rewrite delete_absent.
  - intros Hc. rewrite delete_absent by done. split; [done|apply host_eta].
Qed.

(** ** C8: the action router *)

(** C8. [processAction] hands the arguments of an [update], [sync] or [chat]
    message, as they are, to [onUpdate], [onSync] or [onChatMessage]
    respectively, and does nothing else; on any other tag it completes
    normally without calling anything and leaves the host as it was. *)
Theorem action_router_dispatches (a : ClientAction Value) h :
  (type a = "update" →
   processAction a h
   = {| completion := Normal tt; after := h; emitted := [OnUpdate (args a)] |})
  ∧ (type a = "sync" →
     processAction a h
     = {| completion := Normal tt; after := h; emitted := [OnSync (args a)] |})
  ∧ (type a = "chat" →
     processAction a h
     = {| completion := Normal tt; after := h;
          emitted := [OnChatMessage (args a)] |})
  ∧ (type a ≠ "update" → type a ≠ "sync" → type a ≠ "chat" →
     processAction a h
     = {| completion := Normal tt; after := h; emitted := [] |}).
Proof.
  unfold processAction. split_and!.
  - by intros ->.
  - by intros ->.
  - by intros ->.
  - intros Hu Hs Hc.
    destruct (String.eqb_spec (type a) "update"); [done|].
    destruct (String.eqb_spec (type a) "chat"); [done|].
    by destruct (String.eqb_spec (type a) "sync").
Qed.

(** ** C9: construction *)

(** C9, as the code has it.  What the constructor does follows the
    unguarded call of [createMatch]: if that call throws, the constructor
    throws the same exception; if it reports a setup data error, the
    constructor throws an error with that message; and if it returns a
    match, the constructor's own code yields a host with an empty registry
    whose store holds the match under the given identifier.  A missing,
    empty or ["default"] game name only logs the warning, any other name
    logs nothing, and the name decides nothing else. *)
Theorem construction_follows_createMatch game numPlayers mid :
  let built := new game numPlayers mid in
  let result := createMatch game (default 2 numPlayers) in
  (∀ e, result = Throw e → constructed built = Throw e)
  ∧ (∀ message, result = Normal (setupDataError message) →
       constructed built = Throw (Error ("setupData Error: " ++ message)))
  ∧ (∀ md, result = Normal (NewMatch md) →
       ∃ h, constructed built = Normal h
            ∧ clients h = [] ∧ matchID h = mid
            ∧ fetched h = Some md)
  ∧ (name game = None ∨ name game = Some "" ∨ name game = Some "default" →
       logged built = [ConsoleError default_name_warning])
  ∧ (name game ≠ None → name game ≠ Some "" → name game ≠ Some "default" →
       logged built = []).
Proof.
  intros built result. unfold built, result, constructor.
  assert (Hwarn : name game = None ∨ name game = Some "" ∨ name game = Some "default" →
            (if negb (truthy (name game)) || strict_eq (name game) (Some "default")
             then [ConsoleError (Value := Value) default_name_warning] else [])
            = [ConsoleError default_name_warning])
    by by intros [->|[->| ->]].
  assert (Hquiet : name game ≠ None → name game ≠ Some "" →
            name game ≠ Some "default" →
            (if negb (truthy (name game)) || strict_eq (name game) (Some "default")
             then [ConsoleError (Value := Value) default_name_warning] else [])
            = []).
  { intros H1 H2 H3. destruct (name game) as [s|]; [|done].
    assert (Hs : s ≠ "") by congruence.
    rewrite (proj2 (truthy_Some s)) by done. unfold strict_eq.
    by rewrite bool_decide_false. }
  destruct (createMatch game (default 2 numPlayers)) as [[message|md]|e];
    cbn [constructed logged]; split_and!; try done.
  - by intros ? [= ->].
  - intros ? [= <-]. eexists. split_and!; try done.
    unfold fetched, P2PDB.fetch, P2PDB.createMatch. cbn [db matchID].
    apply lookup_insert_eq.
  - by intros ? [= ->].
Qed.

(** ** The relay *)

Lemma deliveries_app c evs evs' :
  deliveries c (evs ++ evs') = deliveries c evs ++ deliveries c evs'.
Proof.
  induction evs as [|e evs IH]; [done|].
  destruct e; simpl; try done.
  case_decide; simpl; by rewrite IH.
Qed.

(** A fan-out in which the emissions for a registry entry reach that entry
    only: what a handle receives is what its own entry emits, once. *)
Lemma deliveries_fan_out (out : Client → list (Event Value))
    (own : list Value) (l : list Client) c :
  NoDup l →
  (∀ x, deliveries c (out x) = if decide (x = c) then own else []) →
  deliveries c (concat (out <$> l)) = if decide (c ∈ l) then own else [].
Proof.
  intros Hnd Hout. induction Hnd as [|x l Hx Hnd IH].
  - by rewrite decide_False by apply not_elem_of_nil.
  - cbn [fmap list_fmap concat]. rewrite deliveries_app, Hout, IH.
    destruct (decide (x = c)) as [->|Hne].
    + rewrite (decide_False (P := c ∈ l)) by done. rewrite app_nil_r.
      by rewrite decide_True by apply list_elem_of_here.
    + cbn [app]. destruct (decide (c ∈ l)) as [Hin|Hnin].
      * by rewrite decide_True by by apply list_elem_of_further.
      * rewrite decide_False; [done|].
        intros [?|?]%elem_of_cons; congruence.
Qed.

Lemma elem_of_concat {A} (x : A) (ls : list (list A)) :
  x ∈ concat ls → ∃ l, x ∈ l ∧ l ∈ ls.
Proof.
  induction ls as [|l ls IH]; cbn [concat].
  - by intros ?%elem_of_nil.
  - intros [Hx|Hx]%elem_of_app.
    + exists l. split; [done|apply list_elem_of_here].
    + destruct (IH Hx) as (l' & ? & ?). exists l'.
      split; [done|by apply list_elem_of_further].
Qed.

Lemma authenticate_emits c h e :
  e ∈ emitted (authenticate c h) → ∃ md, e = SetMetadata (matchID h) md.
Proof.
  destruct (authenticate_verdict c h); cbn [ret throw emitted];
    try by intros ?%elem_of_nil.
  intros ->%list_elem_of_singleton. eauto.
Qed.

(** Whatever the call, a payload is sent only to a registered handle and is
    the filter's output for that handle's own [playerID]. *)
Lemma step_sends (cl : Call Value) h c v :
  ClientSend c v ∈ emitted (step cl h) →
  c ∈ clients h ∧ ∃ data, v = filterPlayerView (playerID (metadata c)) data.
Proof.
  destruct cl as [c'|c'|c'|a|target data|data]; cbn [call].
  - rewrite register_eq. cbn zeta.
    destruct (completion (authenticate c' h)) as [[|]|]; cbn [emitted].
    + intros [Hin|Hin]%elem_of_app.
      * by apply authenticate_emits in Hin as [? ?].
      * by apply list_elem_of_singleton in Hin.
    + by intros [? ?]%authenticate_emits.
    + by intros [? ?]%authenticate_emits.
  - rewrite unregister_eq. cbn [emitted]. by intros ?%list_elem_of_singleton.
  - rewrite authenticate_call_eq. cbn [emitted].
    by intros [? ?]%authenticate_emits.
  - unfold processAction.
    repeat (destruct (String.eqb _ _);
            [by intros ?%list_elem_of_singleton|]).
    by intros ?%elem_of_nil.
  - rewrite send_eq. cbn [emitted].
    intros [?|Hin]%elem_of_cons; [done|].
    apply elem_of_concat in Hin as (evs & Hin & Hevs).
    apply list_elem_of_fmap in Hevs as (x & -> & Hx).
    case_bool_decide as Hpid; [|by apply elem_of_nil in Hin].
    apply list_elem_of_singleton in Hin. simplify_eq.
    split; [done|]. by exists data.
  - rewrite sendAll_eq. cbn [emitted].
    intros Hin. apply elem_of_concat in Hin as (evs & Hin & Hevs).
    apply list_elem_of_fmap in Hevs as (x & -> & Hx).
    apply elem_of_cons in Hin as [?|Hin]; [done|].
    apply list_elem_of_singleton in Hin. simplify_eq.
    split; [done|]. by exists data.
Qed.

(** The registry holds no handle twice. *)
Lemma set_NoDup c (m : ClientMap.t) : NoDup m → NoDup (ClientMap.set c m).
Proof.
  intros Hnd. unfold ClientMap.set. case_decide; [done|].
  apply NoDup_app. split_and!; [done| |apply NoDup_singleton].
  intros x Hx ->%list_elem_of_singleton. done.
Qed.

Lemma step_registry (cl : Call Value) h :
  clients (after (step cl h)) = clients h
  ∨ (∃ c, cl = UnregisterClient c
          ∧ clients (after (step cl h)) = ClientMap.delete c (clients h))
  ∨ (∃ c, cl = RegisterClient c
          ∧ completion (authenticate c h) = Normal true
          ∧ clients (after (step cl h)) = ClientMap.set c (clients h)).
Proof.
  destruct cl as [c|c|c|a|target data|data]; cbn [call].
  - rewrite register_eq. cbn zeta.
    destruct (completion (authenticate c h)) as [[|]|] eqn:Hc;
      cbn [after clients].
    + right. right. exists c. by rewrite (proj1 (authenticate_registry c h)).
    + left. apply authenticate_registry.
    + left. apply authenticate_registry.
  - right. left. by exists c.
  - left. rewrite authenticate_call_eq. apply authenticate_registry.
  - left. by rewrite (proj2 (processAction_after a h)).
  - left. by rewrite send_eq.
  - left. by rewrite sendAll_eq.
Qed.

Lemma step_NoDup (cl : Call Value) h :
  NoDup (clients h) → NoDup (clients (after (step cl h))).
Proof.
  intros Hnd.
  destruct (step_registry cl h) as [->|[(c & _ & ->)|(c & _ & _ & ->)]].
  - done.
  - unfold ClientMap.delete. by apply NoDup_filter.
  - by apply set_NoDup.
Qed.

Lemma run_NoDup cs h : NoDup (clients h) → NoDup (clients (after (play cs h))).
Proof.
  intros Hnd.
  apply (run_invariant (λ h, NoDup (clients h)) (λ _, True)); [|done].
  intros cl h' Hnd'. split; [by apply step_NoDup|by apply Forall_forall].
Qed.

Lemma run_sends cs h c v :
  ClientSend c v ∈ emitted (play cs h) →
  ∃ data, v = filterPlayerView (playerID (metadata c)) data.
Proof.
  intros Hin.
  pose (Q := λ e : Event Value,
          ∀ c v, e = ClientSend c v →
                 ∃ data, v = filterPlayerView (playerID (metadata c)) data).
  assert (HQ : Forall Q (emitted (play cs h))).
  { apply (run_invariant (λ _, True) Q); [|done].
    intros cl h' _. split; [done|].
    apply Forall_forall. intros e He c' v' ->.
    by apply step_sends in He as [_ ?]. }
  rewrite Forall_forall in HQ. by apply (HQ _ Hin).
Qed.

(** Every host there is holds its match in its store and no handle twice in
    its registry: the side conditions below are met wherever the host can
    be. *)
Lemma reachable_ok h :
  Reachable filterPlayerView ToNumber name createMatch h →
  host_ok h ∧ NoDup (clients h).
Proof.
  induction 1 as [game numPlayers mid h Hnew|cl h _ [Hok Hnd]].
  - unfold constructor in Hnew.
    destruct (createMatch game (default 2 numPlayers)) as [[|md]|];
      cbn [constructed] in Hnew; [done| |done].
    injection Hnew as <-. split; [|apply NoDup_nil_2].
    unfold host_ok, fetched, P2PDB.fetch, P2PDB.createMatch. cbn [db matchID].
    rewrite lookup_insert_eq. by eexists.
  - split; [by apply step_host_ok|by apply step_NoDup].
Qed.

(** ** C4: relay delivery *)

(** C4. With a registry that holds no handle twice, [sendAll] invokes the
    [send] of every registered handle exactly once, with the view filter's
    output for the payload and that handle's own [playerID], and reaches no
    other handle; [send] to a target invokes exactly once the [send] of every
    registered handle whose [playerID] is the target, with the filter's
    output for the target, and reaches no handle whose [playerID] differs;
    neither changes the host; and along any run every payload a handle
    receives is an output of the filter for that handle's own [playerID]. *)
Theorem relay_delivers_filtered_views h data target c :
  NoDup (clients h) →
  after (sendAll filterPlayerView data h) = h
  ∧ after (send filterPlayerView target data h) = h
  ∧ deliveries c (emitted (sendAll filterPlayerView data h))
    = (if decide (c ∈ clients h)
       then [filterPlayerView (playerID (metadata c)) data] else [])
  ∧ deliveries c (emitted (send filterPlayerView target data h))
    = (if decide (c ∈ clients h)
       then if decide (playerID (metadata c) = target)
            then [filterPlayerView (playerID (metadata c)) data] else []
       else [])
  ∧ (∀ cs v, ClientSend c v ∈ emitted (play cs h) →
       ∃ data', v = filterPlayerView (playerID (metadata c)) data').
Proof.
  intros Hnd. rewrite sendAll_eq, send_eq. cbn [after emitted deliveries].
  split_and!; try done.
  - apply deliveries_fan_out; [done|].
    intros x. cbn [deliveries]. by case_decide; subst.
  - apply deliveries_fan_out; [done|].
    intros x. case_bool_decide as Hx; cbn [deliveries].
    + case_decide as Hxc; [|done]. subst x target. by rewrite decide_True.
    + case_decide as Hxc; [|done]. subst x. by rewrite decide_False.
  - intros cs v. apply run_sends.
Qed.

(** ** C5: how often the filter runs *)

Lemma filter_calls_app evs evs' :
  filter_calls (evs ++ evs') = filter_calls evs + filter_calls evs'.
Proof. induction evs as [|[] evs IH]; simpl; lia. Qed.

Lemma send_calls_app evs evs' :
  send_calls (evs ++ evs') = send_calls evs + send_calls evs'.
Proof. induction evs as [|[] evs IH]; simpl; lia. Qed.

Lemma views_sendAll data (l : list Client) last :
  views_keyed_by_recipient filterPlayerView last
    (concat ((λ c,
       [FilterPlayerView (playerID (metadata c)) data;
        ClientSend c (filterPlayerView (playerID (metadata c)) data)]) <$> l)).
Proof.
  revert last. induction l as [|x l IH]; intros last; [done|].
  cbn. split; [done|apply IH].
Qed.

Lemma views_send target data (l : list Client) :
  views_keyed_by_recipient filterPlayerView (Some (target, data))
    (concat ((λ c,
       if bool_decide (playerID (metadata c) = target)
       then [ClientSend c (filterPlayerView target data)] else []) <$> l)).
Proof.
  induction l as [|x l IH]; [done|].
  cbn. case_bool_decide; cbn; [|done]. by split.
Qed.

(** C5, as the code has it.  [sendAll] does, for each registered handle in
    registry order, one invocation of the view filter keyed by that handle's
    own [playerID] and then that handle's [send] with the output: the filter
    runs once per recipient.  [send] invokes the filter exactly once per
    call, keyed by the target and before the loop, whether or not anybody
    claims the target, and then hands that one output to every registered
    handle whose [playerID] is the target, each once, in registry order, and
    to no other handle.  In both, each payload sent is the output of the
    latest filter invocation and that invocation was keyed by the
    recipient's own [playerID], so no view is shared across recipients with
    different claimed identities. *)
Theorem views_are_computed_per_identity h data target :
  let to_all := emitted (sendAll filterPlayerView data h) in
  let to_one := emitted (send filterPlayerView target data h) in
  to_all
  = concat ((λ c, [FilterPlayerView (playerID (metadata c)) data;
                   ClientSend c (filterPlayerView (playerID (metadata c)) data)])
            <$> clients h)
  ∧ to_one
    = FilterPlayerView target data ::
      ((λ c, ClientSend c (filterPlayerView target data))
       <$> filter (λ c, playerID (metadata c) = target) (clients h))
  ∧ filter_calls to_all = length (clients h)
  ∧ send_calls to_all = length (clients h)
  ∧ filter_calls to_one = 1
  ∧ send_calls to_one
    = length (filter (λ c, playerID (metadata c) = target) (clients h))
  ∧ views_keyed_by_recipient filterPlayerView None to_all
  ∧ views_keyed_by_recipient filterPlayerView None to_one.
Proof.
  intros to_all to_one. unfold to_all, to_one.
  rewrite sendAll_eq, send_eq. cbn [emitted].
  split_and!.
  - done.
  - f_equal. induction (clients h) as [|x l IH]; [done|].
    cbn [fmap list_fmap concat]. rewrite IH. case_bool_decide.
    + by rewrite filter_cons_True.
    + by rewrite filter_cons_False.
  - induction (clients h) as [|x l IH]; [done|]. cbn. by rewrite IH.
  - induction (clients h) as [|x l IH]; [done|]. cbn. by rewrite IH.
  - cbn [filter_calls]. f_equal.
    induction (clients h) as [|x l IH]; [done|].
    cbn [fmap list_fmap concat]. rewrite filter_calls_app, IH.
    by case_bool_decide.
  - cbn [send_calls].
    induction (clients h) as [|x l IH]; [done|].
    cbn [fmap list_fmap concat]. rewrite send_calls_app, IH.
    case_bool_decide.
    + by rewrite filter_cons_True.
    + by rewrite filter_cons_False.
  - apply views_sendAll.
  - cbn [views_keyed_by_recipient]. apply views_send.
Qed.

(** ** C3: rejected handles *)

Lemma deliveries_none c evs :
  Forall (λ e, ∀ v, e ≠ ClientSend c v) evs → deliveries c evs = [].
Proof.
  induction 1 as [|e evs He _ IH]; [done|].
  destruct e; cbn [deliveries]; try done.
  case_decide; [|done]. subst. by destruct (He payload).
Qed.

(** A rejection is the comparison branch: the claimed slot is bound and the
    handle's credentials are not the bound ones. *)
Lemma rejection_inv c h :
  completion (authenticate c h) = Normal false →
  authenticate c h = ret false h
  ∧ ∃ k cr, claimed_key ToNumber c = Some k
            ∧ stored_credentials h k = Some cr ∧ truthy cr = true
            ∧ strict_eq (credentials (metadata c)) cr = false.
Proof.
  destruct (authenticate_verdict c h)
    as [| | | | |md k player Hmd Hk Hp He]; cbn [ret throw completion]; try done.
  intros [= Heq]. rewrite Heq. split; [done|].
  exists k, (Server.credentials player). split_and!; try done.
  unfold stored_credentials, stored. rewrite Hmd. simpl. by rewrite Hp.
Qed.

Lemma set_other c c' (m : ClientMap.t) :
  c ≠ c' → c ∉ m → c ∉ ClientMap.set c' m.
Proof.
  intros Hne Hc. unfold ClientMap.set. case_decide; [done|].
  rewrite elem_of_app, list_elem_of_singleton. by intros [?|?].
Qed.

(** C3, as the code has it.  When [authenticateClient] rejects a handle,
    [registerClient] completes normally, leaves the host (registry and
    store) as it was and notifies nobody.  If the handle was not registered
    before, it stays out of the registry along every further run, and no
    fan-out in that run invokes its [send]. *)
Theorem rejected_handles_are_not_registered c h :
  completion (authenticate c h) = Normal false →
  register c h = {| completion := Normal tt; after := h; emitted := [] |}
  ∧ (c ∉ clients h →
     ∀ cs,
       (c ∉ clients (after (play cs (after (register c h)))))
       ∧ deliveries c (emitted (play cs (after (register c h)))) = []).
Proof.
  intros Hrej.
  destruct (rejection_inv c h Hrej) as (Hauth & k & cr & Hk & Hs & Ht & Hne).
  assert (Hreg : register c h
                 = {| completion := Normal tt; after := h; emitted := [] |}).
  { rewrite register_eq. cbn zeta. by rewrite Hauth. }
  split; [done|]. rewrite Hreg. cbn [after].
  intros Hout cs. set (later := play cs h).
  pose (P := λ h', stored_credentials h' k = Some cr ∧ c ∉ clients h').
  pose (Q := λ e : Event Value, ∀ v, e ≠ ClientSend c v).
  assert (HPQ : P (after later) ∧ Forall Q (emitted later)).
  { apply (run_invariant P Q); [|done].
    intros cl h' [Hs' Hout']. split; [split|].
    - by apply step_keeps_binding.
    - destruct (step_registry cl h')
        as [->|[(c' & _ & ->)|(c' & _ & Hok & ->)]]; [done| |].
      + rewrite delete_other. by intros [_ ?].
      + apply set_other; [|done]. intros <-.
        rewrite (authenticate_bound c h' k cr) in Hok by done.
        cbn [completion ret] in Hok. congruence.
    - apply Forall_forall. intros e He v ->.
      by apply step_sends in He as [? _]. }
  destruct HPQ as [[_ Hout'] HQ]. split; [done|].
  by apply deliveries_none.
Qed.

(** * Further properties of the host *)

(** ** The gate asked twice *)

(** X1. Asking the gate twice in a row is asking it once: whatever
    [authenticateClient] answered, the same handle gets the same answer
    from the host the first call left, and this second call writes nothing
    and leaves that host as it is. *)
Theorem gate_asked_twice c h b :
  completion (authenticate c h) = Normal b →
  authenticate c (after (authenticate c h))
  = {| completion := Normal b; after := after (authenticate c h); emitted := [] |}.
Proof.
  destruct (authenticate_verdict c h)
    as [Hn|s Hpid Hnone|s md Hpid Hmd Hno|md k player Hmd Hk Hp He Hc
       |md k player Hmd Hk Hp He Hc|md k player Hmd Hk Hp He];
    cbn [ret throw completion after]; intros [= <-].
  - by apply authenticate_nullish.
  - apply (authenticate_no_slot c h md); [done|].
    unfold claimed_key. rewrite Hpid. done.
  - rewrite (authenticate_bound c _ k (credentials (metadata c))); [|done| |done].
    + unfold strict_eq. by rewrite bool_decide_true.
    + unfold stored_credentials. rewrite stored_after_binding.
      by rewrite decide_True.
  - rewrite (authenticate_slot c h md k player) by done. by rewrite He, Hc.
  - rewrite (authenticate_slot c h md k player) by done. by rewrite He.
Qed.

(** ** One slot does not matter to another *)

Lemma fetched_after_authenticate c h :
  is_Some (fetched (after (authenticate c h))) ↔ is_Some (fetched h).
Proof.
  destruct (authenticate_verdict c h) as [| | |md k player Hmd| |]; try done.
  cbn [after]. rewrite fetched_setMetadata, Hmd. split; eauto.
Qed.

Lemma stored_after_authenticate c h k j :
  claimed_key ToNumber c = Some k → j ≠ k →
  stored (after (authenticate c h)) j = stored h j.
Proof.
  intros Hk Hj.
  destruct (authenticate_verdict c h) as [| | |md k' player Hmd Hk' Hp| |];
    try done.
  cbn [after]. rewrite stored_after_binding. unfold stored. rewrite Hmd.
  simplify_eq. by rewrite decide_False.
Qed.

(** The answer of the gate is a function of the handle, of whether the
    match is in the store, and of the entry of the claimed slot. *)
Lemma authenticate_answer_ext c h h' :
  (is_Some (fetched h') ↔ is_Some (fetched h)) →
  (∀ k, claimed_key ToNumber c = Some k → stored h' k = stored h k) →
  completion (authenticate c h') = completion (authenticate c h).
Proof.
  intros Hf Hs.
  destruct (playerID (metadata c)) as [| |s] eqn:Hpid.
  1-2: by rewrite !authenticate_nullish by auto.
  destruct (fetched h) as [md|] eqn:Hmd; destruct (fetched h') as [md'|] eqn:Hmd'.
  2: { destruct Hf as [_ Hf]. by destruct Hf; eauto. }
  2: { destruct Hf as [Hf _]. by destruct Hf; eauto. }
  2: { by rewrite !(authenticate_unknown_match c _ s). }
  destruct (claimed_key ToNumber c) as [k|] eqn:Hk.
  2: { rewrite (authenticate_no_slot c h md), (authenticate_no_slot c h' md');
         [done|done| |done|]; by rewrite Hk. }
  specialize (Hs k eq_refl). unfold stored in Hs. rewrite Hmd, Hmd' in Hs.
  simpl in Hs.
  destruct (Server.players md !! k) as [player|] eqn:Hp.
  - rewrite (authenticate_slot c h md k player),
      (authenticate_slot c h' md' k player) by done.
    destruct (negb _ && truthy _); [done|]. by destruct (negb _ && negb _).
  - rewrite (authenticate_no_slot c h md), (authenticate_no_slot c h' md');
      [done|done| |done|]; rewrite Hk; intros k' ?; by simplify_eq.
Qed.

(** X2. Player slots are independent: whatever the gate does for a handle
    claiming one slot (binding it included), its answer to a handle that
    claims another slot, or none, is the same after as before. *)
Theorem slots_are_independent c c' h :
  claimed_key ToNumber c' ≠ claimed_key ToNumber c →
  completion (authenticate c' (after (authenticate c h)))
  = completion (authenticate c' h).
Proof.
  intros Hne. apply authenticate_answer_ext.
  - apply fetched_after_authenticate.
  - intros j Hj.
    destruct (claimed_key ToNumber c) as [k|] eqn:Hk.
    + apply (stored_after_authenticate c h k j); [done|congruence].
    + destruct (authenticate_verdict c h); try done. congruence.
Qed.

(** ** Who is in the registry *)

Lemma elem_of_set c c' (m : ClientMap.t) :
  c ∈ ClientMap.set c' m ↔ c = c' ∨ c ∈ m.
Proof.
  unfold ClientMap.set. case_decide as Hin.
  - split; [by right|]. by intros [->|?].
  - rewrite elem_of_app, list_elem_of_singleton. tauto.
Qed.

Lemma authenticate_sound c' h :
  registry_sound ToNumber h → registry_sound ToNumber (after (authenticate c' h)).
Proof.
  intros Hinv.
  destruct (authenticate_verdict c' h)
    as [| | |md k' player' Hmd Hk' Hp' He Hc| |]; try done.
  intros c k player Hin Hk Hst Ht. cbn [after clients] in Hin.
  cbn [after] in Hst. rewrite stored_after_binding in Hst.
  assert (Hold : ∀ p, stored h k = Some p →
                      Server.credentials p = credentials (metadata c))
    by (intros p Hp; by apply (Hinv c k p)).
  case_decide as Hkk.
  - subst k'. exfalso.
    specialize (Hold player'). unfold stored in Hold. rewrite Hmd in Hold.
    specialize (Hold Hp'). congruence.
  - apply Hold. unfold stored. by rewrite Hmd.
Qed.

(** What the gate lets in with credentials matches the store it leaves. *)
Lemma authenticate_admits c h k player :
  completion (authenticate c h) = Normal true →
  claimed_key ToNumber c = Some k →
  stored (after (authenticate c h)) k = Some player →
  truthy (credentials (metadata c)) = true →
  Server.credentials player = credentials (metadata c).
Proof.
  destruct (authenticate_verdict c h)
    as [[Hn|Hn]|s Hpid Hnone|s md Hpid Hmd Hno|md k' player' Hmd Hk' Hp' He Hc
       |md k' player' Hmd Hk' Hp' He Hc|md k' player' Hmd Hk' Hp' He];
    cbn [ret throw completion after]; intros Hret Hk Hst Ht; try done.
  - unfold claimed_key in Hk. by rewrite Hn in Hk.
  - unfold claimed_key in Hk. by rewrite Hn in Hk.
  - unfold claimed_key in Hk. rewrite Hpid in Hk.
    unfold stored in Hst. rewrite Hmd in Hst. simpl in Hst.
    rewrite (Hno k Hk) in Hst. done.
  - rewrite stored_after_binding in Hst. simplify_eq.
    rewrite decide_True in Hst by done. by simplify_eq.
  - congruence.
  - injection Hret as Heq. unfold strict_eq in Heq.
    apply bool_decide_eq_true in Heq.
    unfold stored in Hst. rewrite Hmd in Hst. simpl in Hst. by simplify_eq.
Qed.

Lemma step_sound (cl : Call Value) h :
  registry_sound ToNumber h → registry_sound ToNumber (after (step cl h)).
Proof.
  intros Hinv.
  destruct cl as [c'|c'|c'|a|target data|data]; cbn [call].
  - rewrite register_eq. cbn zeta.
    destruct (completion (authenticate c' h)) as [[|]|] eqn:Hret;
      cbn [after]; [|by apply authenticate_sound..].
    pose proof (authenticate_sound c' h Hinv) as Hinv'.
    intros c k player Hin Hk Hst Ht. cbn [clients] in Hin.
    rewrite (stored_ext (after (authenticate c' h))) in Hst by done.
    apply elem_of_set in Hin as [->|Hin].
    + by apply (authenticate_admits c' h k).
    + by apply (Hinv' c k player).
  - rewrite unregister_eq. cbn [after].
    intros c k player Hin Hk Hst Ht. cbn [clients] in Hin.
    apply delete_other in Hin as [_ Hin].
    rewrite (stored_ext h) in Hst by done.
    by apply (Hinv c k player).
  - rewrite authenticate_call_eq. cbn [after]. by apply authenticate_sound.
  - by rewrite (proj2 (processAction_after a h)).
  - by rewrite send_eq.
  - by rewrite sendAll_eq.
Qed.

Lemma reachable_sound h :
  Reachable filterPlayerView ToNumber name createMatch h → registry_sound ToNumber h.
Proof.
  induction 1 as [game numPlayers mid h Hnew|cl h _ IH].
  - unfold constructor in Hnew.
    destruct (createMatch game (default 2 numPlayers)) as [[|md]|];
      cbn [constructed] in Hnew; [done| |done].
    injection Hnew as <-. intros c k player Hin. by apply elem_of_nil in Hin.
  - by apply step_sound.
Qed.

(** On a sound registry a registered handle with credentials passes, and
    nothing is written for it. *)
Lemma sound_handle_passes h c :
  registry_sound ToNumber h → host_ok h →
  c ∈ clients h → truthy (credentials (metadata c)) = true →
  authenticate c h = {| completion := Normal true; after := h; emitted := [] |}.
Proof.
  intros Hinv [md0 Hmd0] Hin Ht.
  destruct (authenticate_verdict c h)
    as [Hn|s Hpid Hnone|s md Hpid Hmd Hno|md k player Hmd Hk Hp He Hc
       |md k player Hmd Hk Hp He Hc|md k player Hmd Hk Hp He];
    try done.
  - congruence.
  - exfalso. assert (Hst : stored h k = Some player)
      by (unfold stored; by rewrite Hmd).
    rewrite (Hinv c k player Hin Hk Hst Ht) in He. congruence.
  - assert (Hst : stored h k = Some player)
      by (unfold stored; by rewrite Hmd).
    rewrite (Hinv c k player Hin Hk Hst Ht).
    unfold ret, strict_eq. by rewrite bool_decide_true.
Qed.

(** X3. In every host there is (built by the constructor, then any calls),
    a registered handle that carries non-empty credentials still passes the
    gate, and the gate writes nothing for it; so a registered handle the
    gate would now reject is one that came without credentials. *)
Theorem credentialed_handles_stay_valid h c :
  Reachable filterPlayerView ToNumber name createMatch h →
  c ∈ clients h →
  (truthy (credentials (metadata c)) = true →
   authenticate c h
   = {| completion := Normal true; after := h; emitted := [] |})
  ∧ (completion (authenticate c h) = Normal false →
     truthy (credentials (metadata c)) = false).
Proof.
  intros Hreach Hin.
  assert (Hgood : truthy (credentials (metadata c)) = true →
            authenticate c h
            = {| completion := Normal true; after := h; emitted := [] |}).
  { intros Ht. apply sound_handle_passes; [|apply reachable_ok|done..]; try done.
    by apply reachable_sound. }
  split; [done|].
  intros Hrej. destruct (truthy (credentials (metadata c))) eqn:Ht; [|done].
  rewrite (Hgood eq_refl) in Hrej. done.
Qed.

(** ** What a run can do to the store *)

Lemma step_fetched (cl : Call Value) h :
  (∃ c, fetched (after (step cl h)) = fetched (after (authenticate c h)))
  ∨ fetched (after (step cl h)) = fetched h.
Proof.
  unfold fetched. rewrite step_matchID.
  destruct (step_store cl h) as [[c ->]| ->]; [left|by right].
  exists c. by rewrite (proj2 (authenticate_registry c h)).
Qed.

Lemma slot_evolves_refl p : slot_evolves p p.
Proof. destruct p; simpl; auto. Qed.

Lemma slot_evolves_trans p1 p2 p3 :
  slot_evolves p1 p2 → slot_evolves p2 p3 → slot_evolves p1 p3.
Proof.
  destruct p1 as [a|], p2 as [b|], p3 as [c|]; simpl; try done.
  intros H1 H2.
  destruct H1 as [H1|[H1 H1']], H2 as [H2|[H2 H2']].
  - left. congruence.
  - right. split; congruence.
  - right. split; congruence.
  - congruence.
Qed.

Lemma evolves_refl md : evolves md md.
Proof. intros k. apply slot_evolves_refl. Qed.

Lemma evolves_trans md1 md2 md3 :
  evolves md1 md2 → evolves md2 md3 → evolves md1 md3.
Proof.
  intros H1 H2 k. by eapply slot_evolves_trans.
Qed.

Lemma authenticate_evolves c h md :
  fetched h = Some md →
  ∃ md', fetched (after (authenticate c h)) = Some md' ∧ evolves md md'.
Proof.
  intros Hmd.
  destruct (authenticate_verdict c h)
    as [| | |md0 k player Hmd0 Hk Hp He Hc| |];
    cbn [ret throw after]; try (exists md; split; [done|apply evolves_refl]).
  rewrite fetched_setMetadata. eexists. split; [done|].
  simplify_eq. intros j. rewrite bound_to_lookup.
  case_decide as Hj; [|apply slot_evolves_refl].
  subst j. rewrite Hp. simpl. by right.
Qed.

(** X4. Along any run of calls the store keeps the host's match, no player
    slot appears in it or disappears from it, and all that happens to the
    credentials of a slot is that a slot holding none gets some: credentials
    once set stay as set, for every slot at once. *)
Theorem store_only_gains_credentials h md cs :
  fetched h = Some md →
  ∃ md', fetched (after (play cs h)) = Some md' ∧ evolves md md'.
Proof.
  intros Hmd.
  pose (P := λ h', ∃ md', fetched h' = Some md' ∧ evolves md md').
  apply (run_invariant P (λ _, True)).
  - intros cl h' (md' & Hmd' & Hev). split; [|by apply Forall_forall].
    destruct (step_fetched cl h') as [[c Hc]|Hsame].
    + destruct (authenticate_evolves c h' md' Hmd') as (md'' & Hmd'' & Hev').
      exists md''. split; [congruence|]. by eapply evolves_trans.
    + exists md'. split; [congruence|done].
  - exists md. split; [done|apply evolves_refl].
Qed.

(** ** How often the store is written *)

Lemma writes_app evs evs' : writes (evs ++ evs') = writes evs ++ writes evs'.
Proof. induction evs as [|[] evs IH]; simpl; by rewrite ?IH. Qed.

Lemma unbound_slots_bound md k player creds :
  Server.players md !! k = Some player →
  truthy (Server.credentials player) = false →
  truthy creds = true →
  S (unbound_slots (bound_to md k player creds)) = unbound_slots md.
Proof.
  intros Hp He Hc. unfold unbound_slots, bound_to, with_players.
  cbn [Server.players].
  rewrite map_filter_insert_False by (cbn; congruence).
  rewrite map_filter_delete, map_size_delete_Some.
  - assert (Hpos : size (filter (λ kv, truthy (Server.credentials kv.2) = false)
                           (Server.players md)) ≠ 0); [|lia].
    intros Hz%map_size_empty_inv.
    assert (Hin : filter (λ kv, truthy (Server.credentials kv.2) = false)
                    (Server.players md) !! k = Some player)
      by by apply map_lookup_filter_Some.
    rewrite Hz in Hin. by rewrite lookup_empty in Hin.
  - exists player. by apply map_lookup_filter_Some.
Qed.

Lemma authenticate_write_count c h :
  length (writes (emitted (authenticate c h))) + unbound (after (authenticate c h))
  = unbound h.
Proof.
  destruct (authenticate_verdict c h)
    as [| | |md k player Hmd Hk Hp He Hc| |]; try done.
  cbn [after emitted writes length]. unfold unbound.
  rewrite fetched_setMetadata, Hmd. cbn [from_option].
  by rewrite <- (unbound_slots_bound md k player (credentials (metadata c))).
Qed.

Lemma unbound_ext h h' : fetched h' = fetched h → unbound h' = unbound h.
Proof. unfold unbound. by intros ->. Qed.

Lemma step_write_count (cl : Call Value) h :
  length (writes (emitted (step cl h))) + unbound (after (step cl h)) = unbound h.
Proof.
  destruct cl as [c|c|c|a|target data|data]; cbn [call].
  - rewrite register_eq. cbn zeta.
    rewrite <- (authenticate_write_count c h).
    destruct (completion (authenticate c h)) as [[|]|]; cbn [after emitted];
      [|done..].
    rewrite writes_app. cbn [writes]. rewrite app_nil_r. done.
  - done.
  - rewrite authenticate_call_eq. apply authenticate_write_count.
  - unfold processAction. by repeat (destruct (String.eqb _ _); [done|]).
  - rewrite send_eq. cbn [after emitted writes].
    assert (Hnone : ∀ l : list Client,
              writes (concat ((λ c : Client,
                if bool_decide (playerID (metadata c) = target)
                then [ClientSend c (filterPlayerView target data)] else [])
                <$> l)) = []).
    { induction l as [|x l IH]; [done|]. cbn. rewrite writes_app, IH.
      by case_bool_decide. }
    by rewrite Hnone.
  - rewrite sendAll_eq. cbn [after emitted].
    assert (Hnone : ∀ l : list Client,
              writes (concat ((λ c : Client,
                [FilterPlayerView (playerID (metadata c)) data;
                 ClientSend c (filterPlayerView (playerID (metadata c)) data)])
                <$> l)) = []).
    { induction l as [|x l IH]; [done|]. cbn. by rewrite IH. }
    by rewrite Hnone.
Qed.

(** X5. The gate's own calls of [setMetadata] (the one at line 99, the only
    one in the host's code) are counted by the slots they bind: over any
    run of calls, the number of those calls plus the number of player slots
    still without credentials is the number of slots without credentials at
    the start.  So the gate never calls [setMetadata] twice for one slot,
    nor more often in a run than there were slots without credentials. *)
Theorem one_write_per_unbound_slot cs h :
  length (writes (emitted (play cs h))) + unbound (after (play cs h)) = unbound h
  ∧ length (writes (emitted (play cs h))) ≤ unbound h.
Proof.
  assert (Heq : length (writes (emitted (play cs h)))
                + unbound (after (play cs h)) = unbound h); [|split; [done|lia]].
  revert h. induction cs as [|cl cs IH]; intros h; [done|].
  rewrite run_cons. pose proof (step_write_count cl h) as Hstep.
  destruct (completion (step cl h)) as [[]|e] eqn:Hc.
  - rewrite (bind_normal _ _ _ tt) by done. cbn [after emitted].
    rewrite writes_app, length_app.
    specialize (IH (after (step cl h))). lia.
  - rewrite (bind_throw _ _ _ e) by done. by cbn [after emitted].
Qed.

(** ** Registration and the relay together *)

Lemma deliveries_sendAll h data c :
  NoDup (clients h) →
  deliveries c (emitted (sendAll filterPlayerView data h))
  = if decide (c ∈ clients h)
    then [filterPlayerView (playerID (metadata c)) data] else [].
Proof.
  intros Hnd. rewrite sendAll_eq. cbn [emitted].
  apply deliveries_fan_out; [done|].
  intros x. cbn [deliveries]. by case_decide; subst.
Qed.

Lemma deliveries_send h target data c :
  NoDup (clients h) →
  deliveries c (emitted (send filterPlayerView target data h))
  = if decide (c ∈ clients h)
    then if decide (playerID (metadata c) = target)
         then [filterPlayerView target data] else []
    else [].
Proof.
  intros Hnd. rewrite send_eq. cbn [emitted deliveries].
  apply deliveries_fan_out; [done|].
  intros x. case_bool_decide as Hx; cbn [deliveries].
  - case_decide as Hxc; [|done]. subst x. by rewrite decide_True.
  - case_decide as Hxc; [|done]. subst x. by rewrite decide_False.
Qed.

Lemma register_registry c h :
  completion (authenticate c h) = Normal true →
  clients (after (register c h)) = ClientMap.set c (clients h).
Proof.
  intros Hret. rewrite register_eq. cbn zeta. rewrite Hret. cbn [after clients].
  by rewrite (proj1 (authenticate_registry c h)).
Qed.

(** X6. Once [registerClient] has let a handle in, the next fan-out serves
    it: [sendAll] and [send] to its own playerID each invoke its [send]
    exactly once, with its own view, also when the handle had been registered
    before; and what [sendAll] hands to any other handle is what it handed
    before the registration. *)
Theorem registered_handle_is_served c h data :
  NoDup (clients h) →
  completion (authenticate c h) = Normal true →
  deliveries c (emitted (sendAll filterPlayerView data (after (register c h))))
  = [filterPlayerView (playerID (metadata c)) data]
  ∧ deliveries c
      (emitted (send filterPlayerView (playerID (metadata c)) data
                  (after (register c h))))
    = [filterPlayerView (playerID (metadata c)) data]
  ∧ ∀ c', c' ≠ c →
      deliveries c' (emitted (sendAll filterPlayerView data (after (register c h))))
      = deliveries c' (emitted (sendAll filterPlayerView data h)).
Proof.
  intros Hnd Hret.
  pose proof (register_registry c h Hret) as Hreg.
  assert (Hnd' : NoDup (clients (after (register c h))))
    by (rewrite Hreg; by apply set_NoDup).
  assert (Hin : c ∈ clients (after (register c h)))
    by (rewrite Hreg; apply elem_of_set; by left).
  split_and!.
  - rewrite deliveries_sendAll by done. by rewrite decide_True.
  - rewrite deliveries_send by done. by rewrite !decide_True.
  - intros c' Hne. rewrite !deliveries_sendAll by done.
    destruct (decide (c' ∈ clients h)) as [Hc'|Hc'].
    + rewrite decide_True; [done|]. rewrite Hreg. apply elem_of_set. by right.
    + rewrite decide_False; [done|]. rewrite Hreg, elem_of_set. by intros [?|?].
Qed.

(** X7. Once [unregisterClient] has removed a handle, no fan-out reaches
    it, and every other handle is served by [sendAll] and by [send] exactly
    as it was before. *)
Theorem unregistered_handle_is_cut_off c h data target c' :
  NoDup (clients h) →
  deliveries c'
    (emitted (sendAll filterPlayerView data
                (after (unregisterClient (Value := Value) c h))))
  = (if decide (c' = c) then []
     else deliveries c' (emitted (sendAll filterPlayerView data h)))
  ∧ deliveries c'
      (emitted (send filterPlayerView target data
                  (after (unregisterClient (Value := Value) c h))))
    = (if decide (c' = c) then []
       else deliveries c' (emitted (send filterPlayerView target data h))).
Proof.
  intros Hnd. rewrite unregister_eq. cbn [after].
  assert (Hnd' : NoDup (ClientMap.delete c (clients h)))
    by (unfold ClientMap.delete; by apply NoDup_filter).
  rewrite !deliveries_sendAll, !deliveries_send by done. cbn [clients].
  destruct (decide (c' = c)) as [->|Hne].
  - rewrite !decide_False by apply delete_removes. done.
  - destruct (decide (c' ∈ clients h)) as [Hc'|Hc'].
    + rewrite !decide_True by by apply delete_other. done.
    + rewrite !decide_False; [done|..]; rewrite delete_other; by intros [_ ?].
Qed.

Lemma delete_set c (m : ClientMap.t) :
  c ∉ m → ClientMap.delete c (ClientMap.set c m) = m.
Proof.
  intros Hc. unfold ClientMap.set. rewrite decide_False by done.
  unfold ClientMap.delete. rewrite filter_app.
  rewrite filter_cons_False, filter_nil, app_nil_r by (intros ?; done).
  by apply delete_absent.
Qed.

(** X8. A handle that was not registered, is let in and then unregistered,
    leaves the registry as it was and the credentials in the store as the
    gate left them: what the registration bound stays bound after the
    handle is gone. *)
Theorem register_then_unregister c h :
  c ∉ clients h →
  completion (authenticate c h) = Normal true →
  clients (after (unregisterClient (Value := Value) c (after (register c h))))
  = clients h
  ∧ ∀ k, stored_credentials
           (after (unregisterClient (Value := Value) c (after (register c h)))) k
         = stored_credentials (after (authenticate c h)) k.
Proof.
  intros Hout Hret. rewrite unregister_eq. cbn [after clients].
  split.
  - rewrite register_registry by done. by apply delete_set.
  - intros k. unfold stored_credentials. f_equal.
    rewrite register_eq. cbn zeta. rewrite Hret. cbn [after matchID db].
    by apply stored_ext.
Qed.

(** ** The order of delivery *)

Lemma recipients_app (evs evs' : list (Event Value)) :
  recipients (evs ++ evs') = recipients evs ++ recipients evs'.
Proof. induction evs as [|[] evs IH]; simpl; by rewrite ?IH. Qed.

(** X9. Handles are served in the order in which they entered the registry:
    [sendAll] invokes the [send]s in registry order, [send] those of the
    target's handles in registry order; a handle let in for the first time
    goes to the end of the registry, and letting in a handle that is
    already there leaves the order as it is. *)
Theorem delivery_follows_registration_order c h data target :
  recipients (emitted (sendAll filterPlayerView data h)) = clients h
  ∧ recipients (emitted (send filterPlayerView target data h))
    = filter (λ x, playerID (metadata x) = target) (clients h)
  ∧ (completion (authenticate c h) = Normal true →
     (c ∉ clients h → clients (after (register c h)) = clients h ++ [c])
     ∧ (c ∈ clients h → clients (after (register c h)) = clients h)).
Proof.
  rewrite sendAll_eq, send_eq. cbn [emitted recipients]. split_and!.
  - induction (clients h) as [|x l IH]; [done|]. cbn. by rewrite IH.
  - induction (clients h) as [|x l IH]; [done|].
    cbn [fmap list_fmap concat]. rewrite recipients_app, IH.
    case_bool_decide.
    + by rewrite filter_cons_True.
    + by rewrite filter_cons_False.
  - intros Hret. rewrite register_registry by done. unfold ClientMap.set.
    split; intros Hc.
    + by rewrite decide_False.
    + by rewrite decide_True.
Qed.

(** ** The host and its match *)

Lemma authenticate_db_other c h m :
  m ≠ matchID h → db (after (authenticate c h)) !! m = db h !! m.
Proof.
  intros Hm. destruct (authenticate_verdict c h); try done.
  cbn [after db]. unfold P2PDB.setMetadata. by rewrite lookup_insert_ne.
Qed.

Lemma step_scoped (cl : Call Value) h e m :
  e ∈ emitted (step cl h) → event_match e = Some m → m = matchID h.
Proof.
  destruct cl as [c|c|c|a|target data|data]; cbn [call].
  - rewrite register_eq. cbn zeta.
    destruct (completion (authenticate c h)) as [[|]|]; cbn [emitted].
    + intros [Hin|Hin]%elem_of_app.
      * apply authenticate_emits in Hin as [md ->]. by intros [= <-].
      * apply list_elem_of_singleton in Hin as ->. intros [= <-].
        apply authenticate_registry.
    + intros [md ->]%authenticate_emits. by intros [= <-].
    + intros [md ->]%authenticate_emits. by intros [= <-].
  - rewrite unregister_eq. cbn [emitted].
    intros ->%list_elem_of_singleton. by intros [= <-].
  - rewrite authenticate_call_eq. cbn [emitted].
    intros [md ->]%authenticate_emits. by intros [= <-].
  - unfold processAction.
    repeat (destruct (String.eqb _ _);
            [by intros ->%list_elem_of_singleton|]).
    by intros ?%elem_of_nil.
  - rewrite send_eq. cbn [emitted].
    intros [->|Hin]%elem_of_cons; [done|].
    apply elem_of_concat in Hin as (evs & Hin & Hevs).
    apply list_elem_of_fmap in Hevs as (x & -> & Hx).
    case_bool_decide; [|by apply elem_of_nil in Hin].
    by apply list_elem_of_singleton in Hin as ->.
  - rewrite sendAll_eq. cbn [emitted].
    intros Hin. apply elem_of_concat in Hin as (evs & Hin & Hevs).
    apply list_elem_of_fmap in Hevs as (x & -> & Hx).
    apply elem_of_cons in Hin as [->|Hin]; [done|].
    by apply list_elem_of_singleton in Hin as ->.
Qed.

(** X10. A host stays with its match: along any run of calls its match
    identifier does not change, every store write and every connection
    notification it emits names that identifier, and the store's entries
    under any other identifier are left as they were. *)
Theorem host_stays_with_its_match h cs :
  matchID (after (play cs h)) = matchID h
  ∧ (∀ m, m ≠ matchID h → db (after (play cs h)) !! m = db h !! m)
  ∧ Forall (λ e, ∀ m, event_match e = Some m → m = matchID h)
      (emitted (play cs h)).
Proof.
  pose (P := λ h', matchID h' = matchID h
                   ∧ ∀ m, m ≠ matchID h → db h' !! m = db h !! m).
  pose (Q := λ e : Event Value, ∀ m, event_match e = Some m → m = matchID h).
  assert (HPQ : P (after (play cs h)) ∧ Forall Q (emitted (play cs h))).
  { apply (run_invariant P Q); [|by split].
    intros cl h' [Hid Hdb]. split; [split|].
    - by rewrite step_matchID.
    - intros m Hm. rewrite <- (Hdb m Hm).
      destruct (step_store cl h') as [[c ->]| ->]; [|done].
      apply authenticate_db_other. congruence.
    - apply Forall_forall. intros e He m Hm. rewrite <- Hid.
      by apply (step_scoped cl h' e m). }
  destruct HPQ as [[Hid Hdb] HQ]. done.
Qed.

(** ** The master knows who is registered *)

Lemma step_announced (cl : Call Value) h c :
  c ∈ clients (after (step cl h)) →
  c ∈ clients h
  ∨ OnConnectionChange (matchID h) (playerID (metadata c))
      (credentials (metadata c)) true ∈ emitted (step cl h).
Proof.
  destruct (step_registry cl h)
    as [->|[(c' & _ & ->)|(c' & -> & Hok & ->)]].
  - by left.
  - intros [_ ?]%delete_other. by left.
  - intros [->|?]%elem_of_set; [right|by left].
    cbn [call]. rewrite register_eq. cbn zeta. rewrite Hok. cbn [emitted].
    apply elem_of_app. right.
    rewrite (proj2 (authenticate_registry c' h)). apply list_elem_of_here.
Qed.

(** X11. The master has been told of every handle in the registry: a handle
    that is registered after a run of calls was registered at its start, or
    the run emitted the connection notification for it, with the host's
    match, the handle's own playerID and credentials, and [true]. *)
Theorem registered_handles_were_announced cs h c :
  c ∈ clients (after (play cs h)) →
  c ∈ clients h
  ∨ OnConnectionChange (matchID h) (playerID (metadata c))
      (credentials (metadata c)) true ∈ emitted (play cs h).
Proof.
  revert h. induction cs as [|cl cs IH]; intros h; [by left|].
  rewrite run_cons.
  destruct (completion (step cl h)) as [[]|e] eqn:Hc.
  - rewrite (bind_normal _ _ _ tt) by done. cbn [after emitted].
    intros [Hin|Hin]%IH.
    + apply step_announced in Hin as [?|?]; [by left|right].
      apply elem_of_app. by left.
    + right. apply elem_of_app. right. by rewrite step_matchID in Hin.
  - rewrite (bind_throw _ _ _ e) by done. cbn [after emitted].
    apply step_announced.
Qed.

(** ** Runs stay among the hosts there are *)

Lemma reachable_run cs h :
  Reachable filterPlayerView ToNumber name createMatch h →
  Reachable filterPlayerView ToNumber name createMatch (after (play cs h)).
Proof.
  revert h. induction cs as [|cl cs IH]; intros h Hreach; [done|].
  rewrite run_cons.
  destruct (completion (step cl h)) as [[]|e] eqn:Hc.
  - rewrite (bind_normal _ _ _ tt) by done. cbn [after].
    apply IH. by constructor.
  - rewrite (bind_throw _ _ _ e) by done. cbn [after]. by constructor.
Qed.


(** ** Coming back, and coming without credentials *)

(** The gate reads nothing of a handle but its metadata. *)
Lemma authenticate_metadata c c' h :
  metadata c' = metadata c → authenticate c' h = authenticate c h.
Proof. unfold authenticateClient. by intros ->. Qed.

(** X13. Reconnecting works: in every host there is, a new handle that
    carries the playerID and the non-empty credentials of a handle already
    registered passes the gate without a write; [registerClient] puts it in
    the registry, keeps the handle that was there, and both are served by
    the next [sendAll], each once. *)
Theorem reconnect_with_same_credentials h c c' data :
  Reachable filterPlayerView ToNumber name createMatch h →
  c ∈ clients h →
  truthy (credentials (metadata c)) = true →
  metadata c' = metadata c →
  authenticate c' h = {| completion := Normal true; after := h; emitted := [] |}
  ∧ c' ∈ clients (after (register c' h))
  ∧ c ∈ clients (after (register c' h))
  ∧ deliveries c' (emitted (sendAll filterPlayerView data (after (register c' h))))
    = [filterPlayerView (playerID (metadata c)) data]
  ∧ deliveries c (emitted (sendAll filterPlayerView data (after (register c' h))))
    = [filterPlayerView (playerID (metadata c)) data].
Proof.
  intros Hreach Hin Ht Hmeta.
  destruct (reachable_ok h Hreach) as [Hok Hnd].
  assert (Hpass : authenticate c' h
                  = {| completion := Normal true; after := h; emitted := [] |}).
  { rewrite (authenticate_metadata c c') by done.
    apply sound_handle_passes; try done. by apply reachable_sound. }
  assert (Hreg : clients (after (register c' h)) = ClientMap.set c' (clients h)).
  { rewrite register_eq. cbn zeta. by rewrite Hpass. }
  assert (Hnd' : NoDup (clients (after (register c' h))))
    by (rewrite Hreg; by apply set_NoDup).
  assert (Hc' : c' ∈ clients (after (register c' h)))
    by (rewrite Hreg; apply elem_of_set; by left).
  assert (Hc : c ∈ clients (after (register c' h)))
    by (rewrite Hreg; apply elem_of_set; by right).
  split_and!; try done.
  - rewrite deliveries_sendAll by done.
    rewrite decide_True by done. by rewrite Hmeta.
  - rewrite deliveries_sendAll by done. by rewrite decide_True.
Qed.

(** X14. A handle admitted without credentials outlives the binding of its
    slot.  On a slot that holds no credentials a handle without credentials
    passes the gate and [registerClient] registers it.  When another handle
    then registers with non-empty credentials for the same slot, the gate
    rejects the first handle from then on and a further [registerClient] of
    it changes nothing, yet it is still in the registry and the next
    [sendAll] still invokes its [send], once, with that player's view. *)
Theorem anonymous_handle_outlives_binding h c c' k player data :
  NoDup (clients h) →
  claimed_key ToNumber c = Some k →
  claimed_key ToNumber c' = Some k →
  stored h k = Some player →
  truthy (Server.credentials player) = false →
  truthy (credentials (metadata c)) = false →
  truthy (credentials (metadata c')) = true →
  let admitted := after (register c h) in
  let bound := after (register c' admitted) in
  completion (authenticate c h) = Normal true
  ∧ c ∈ clients admitted
  ∧ completion (authenticate c' admitted) = Normal true
  ∧ stored_credentials bound k = Some (credentials (metadata c'))
  ∧ completion (authenticate c bound) = Normal false
  ∧ register c bound = {| completion := Normal tt; after := bound; emitted := [] |}
  ∧ c ∈ clients bound
  ∧ deliveries c (emitted (sendAll filterPlayerView data bound))
    = [filterPlayerView (playerID (metadata c)) data].
Proof.
  intros Hnd Hk Hk' Hp He Hc Hc' admitted bound.
  destruct (stored_inv _ _ _ Hp) as (md & Hmd & Hpl).
  assert (Hpass : authenticate c h = ret true h).
  { rewrite (authenticate_slot c h md k player) by done. by rewrite He, Hc. }
  assert (Hadm : admitted
                 = {| clients := ClientMap.set c (clients h);
                      matchID := matchID h; db := db h |}).
  { unfold admitted. rewrite register_eq. cbn zeta. by rewrite Hpass. }
  assert (Hp1 : stored admitted k = Some player)
    by (rewrite Hadm; by rewrite (stored_ext h)).
  destruct (authenticate_binds c' admitted k player) as [Hret' Hst']; try done.
  assert (Hreg : clients bound = ClientMap.set c' (clients admitted))
    by by apply register_registry.
  assert (Hst : stored_credentials bound k = Some (credentials (metadata c'))).
  { unfold stored_credentials, bound. rewrite register_eq. cbn zeta.
    rewrite Hret'. cbn [after].
    rewrite (stored_ext (after (authenticate c' admitted))) by done.
    by rewrite Hst'. }
  assert (Hrej : authenticate c bound = ret false bound).
  { rewrite (authenticate_bound c bound k (credentials (metadata c'))) by done.
    unfold strict_eq. rewrite bool_decide_false; [done|congruence]. }
  assert (Hin1 : c ∈ clients admitted)
    by (rewrite Hadm; apply elem_of_set; by left).
  assert (Hin : c ∈ clients bound)
    by (rewrite Hreg; apply elem_of_set; by right).
  assert (Hnd' : NoDup (clients bound)).
  { rewrite Hreg, Hadm. cbn [clients]. by do 2 apply set_NoDup. }
  split_and!; try done.
  - by rewrite Hpass.
  - by rewrite Hrej.
  - rewrite register_eq. cbn zeta. by rewrite Hrej.
  - rewrite deliveries_sendAll by done. by rewrite decide_True.
Qed.

End Properties.

(** * The host at work on the two-player match *)

Import Fixture.

(** Scenario A: player 0 connects with ["c0"] and binds it, reconnects with
    ["c0"] and is let in, reconnects with ["wrong"] and is refused. *)
Example scenario_A :
  completion (authenticate alice fresh) = Normal true
  ∧ stored_credentials bound 0 = Some (Some "c0")
  ∧ completion (authenticate alice_again bound) = Normal true
  ∧ completion (authenticate mallory bound) = Normal false
  ∧ clients (after (register mallory bound)) = [alice].
Proof. vm_compute. done. Qed.

(** Scenario B: a spectator is registered and announced with its
    [undefined] playerID. *)
Example scenario_B :
  register watcher bound
  = {| completion := Normal tt;
       after := {| clients := [alice; watcher]; matchID := "m1"; db := db bound |};
       emitted := [OnConnectionChange "m1" pid_undefined (Some "anything") true] |}.
Proof. vm_compute. done. Qed.

(** Scenario C: a chat message reaches [onChatMessage]; an unknown tag
    reaches nothing. *)
Example scenario_C :
  emitted (processAction {| type := "chat"; args := ["hello"] |} bound)
  = [OnChatMessage ["hello"]]
  ∧ processAction {| type := "bogus"; args := ["hello"] |} bound
    = {| completion := Normal tt; after := bound; emitted := [] |}.
Proof. vm_compute. done. Qed.

(** The unary plus at work: the empty string and a padded numeral are
    player slots, a word is not a number; so a handle whose playerID is the
    empty string claims slot 0 and is held to its credentials. *)
Example unary_plus :
  StringToNumber.ToNumber "0" = Index 0
  ∧ StringToNumber.ToNumber "" = Index 0
  ∧ StringToNumber.ToNumber " 1 " = Index 1
  ∧ StringToNumber.ToNumber "1.0" = Index 1
  ∧ StringToNumber.ToNumber "0x1" = Index 1
  ∧ StringToNumber.ToNumber "1.5" = OtherNumber
  ∧ StringToNumber.ToNumber "-1" = OtherNumber
  ∧ StringToNumber.ToNumber "abc" = NaN
  ∧ completion (authenticate (handle 10 (pid_string "") (Some "wrong")) bound)
    = Normal false.
Proof. vm_compute. done. Qed.

(** ** The theorems at concrete inputs *)

(** C1 on the fresh match: player 0 binds ["c0"]; after a run in which
    others try the slot, ["c0"] is still stored, ["wrong"] is refused and
    ["c0"] is let in. *)
Lemma credential_binding_is_one_shot_witness :
  let first := authenticate alice fresh in
  let later :=
    after (play [RegisterClient mallory; AuthenticateClient early_bird;
                 RegisterClient bob; UnregisterClient alice]
             (after first)) in
  claimed_key StringToNumber.ToNumber alice = Some 0%N
  ∧ stored fresh 0 = Some unset
  ∧ completion first = Normal true
  ∧ stored_credentials (after first) 0 = Some (Some "c0")
  ∧ stored_credentials later 0 = Some (Some "c0")
  ∧ completion (authenticate mallory later) = Normal false
  ∧ completion (authenticate alice_again later) = Normal true.
Proof.
  intros first later.
  destruct (credential_binding_is_one_shot filterPlayerView
              StringToNumber.ToNumber fresh alice 0 unset "c0")
    as (Hfirst & Hstored & Hlater);
    [vm_compute; reflexivity | vm_compute; reflexivity | reflexivity
    | reflexivity | discriminate |].
  destruct (Hlater [RegisterClient mallory; AuthenticateClient early_bird;
                    RegisterClient bob; UnregisterClient alice])
    as (Hkept & Hgate).
  destruct (Hgate mallory "wrong") as [Hmallory _];
    [vm_compute; reflexivity | reflexivity | discriminate |].
  destruct (Hgate alice_again "c0") as [Halice _];
    [vm_compute; reflexivity | reflexivity | discriminate |].
  split; [vm_compute; reflexivity|].
  split; [vm_compute; reflexivity|].
  split; [exact Hfirst|]. split; [exact Hstored|]. split; [exact Hkept|].
  split; [exact Hmallory | exact Halice].
Defined.

(** C2 on the bound match: a watcher without playerID, a handle whose
    playerID is a word and one whose playerID names slot 7 all pass, and
    the host is left as it was. *)
Lemma spectators_always_pass_witness :
  authenticate watcher bound
  = {| completion := Normal true; after := bound; emitted := [] |}
  ∧ authenticate stranger bound
    = {| completion := Normal true; after := bound; emitted := [] |}
  ∧ authenticate latecomer bound
    = {| completion := Normal true; after := bound; emitted := [] |}.
Proof.
  split; [|split].
  - apply (proj1 (spectators_always_pass StringToNumber.ToNumber watcher bound)).
    right. reflexivity.
  - apply (proj2 (spectators_always_pass StringToNumber.ToNumber stranger bound)
             "abc"); [reflexivity | vm_compute; eauto |].
    left. vm_compute. reflexivity.
  - apply (proj2 (spectators_always_pass StringToNumber.ToNumber latecomer bound)
             "7"); [reflexivity | vm_compute; eauto |].
    right. intros k Hk. vm_compute in Hk. injection Hk as <-.
    vm_compute. reflexivity.
Defined.

(** C2 fails as stated on a playerID that is no numeral but that the unary
    plus accepts: the empty string and a blank both cast to 0, so the handle
    claims slot 0 and is gated as a player.  On the bound match the handle
    with the empty playerID and the wrong credentials is rejected, and
    [registerClient] does not register it; on the fresh match the handle
    with the blank playerID binds slot 0. *)
Lemma blank_playerID_is_gated :
  StringToNumber.ToNumber "" = Index 0
  ∧ StringToNumber.ToNumber " " = Index 0
  ∧ completion (authenticate (handle 10 (pid_string "") (Some "wrong")) bound)
    = Normal false
  ∧ clients (after (register (handle 10 (pid_string "") (Some "wrong")) bound))
    = [alice]
  ∧ stored_credentials fresh 0 = Some None
  ∧ stored_credentials
      (after (authenticate (handle 11 (pid_string " ") (Some "mine")) fresh)) 0
    = Some (Some "mine").
Proof. vm_compute. done. Qed.

(** C3 fails as stated on [crowded]: the handle that claimed slot 0 early is
    rejected when it registers again, yet it is still in the registry and the
    next [sendAll] invokes its [send]. *)
Lemma rejected_handle_still_registered :
  completion (authenticate early_bird crowded) = Normal false
  ∧ early_bird ∈ clients (after (register early_bird crowded))
  ∧ ClientSend early_bird "0 sees state"
    ∈ emitted (sendAll filterPlayerView "state"
                 (after (register early_bird crowded))).
Proof.
  split; [vm_compute; reflexivity|]. split.
  - vm_compute. apply list_elem_of_here.
  - vm_compute. apply list_elem_of_further, list_elem_of_here.
Qed.

(** C3 as amended, on the bound match: the handle with the wrong credentials
    is rejected, was never registered, and nothing reaches it afterwards. *)
Lemma rejected_handles_are_not_registered_witness :
  completion (authenticate mallory bound) = Normal false
  ∧ (mallory ∉ clients bound)
  ∧ register mallory bound
    = {| completion := Normal tt; after := bound; emitted := [] |}
  ∧ deliveries mallory
      (emitted (play [RegisterClient mallory; SendAll "state";
                      Send (pid_string "0") "hand"]
                  (after (register mallory bound)))) = [].
Proof.
  assert (Hrej : completion (authenticate mallory bound) = Normal false)
    by (vm_compute; reflexivity).
  assert (Hout : mallory ∉ clients bound).
  { vm_compute. intros Hin. apply list_elem_of_singleton in Hin. discriminate. }
  destruct (rejected_handles_are_not_registered filterPlayerView
              StringToNumber.ToNumber mallory bound Hrej) as [Hreg Hnever].
  split; [exact Hrej|]. split; [exact Hout|]. split; [exact Hreg|].
  exact (proj2 (Hnever Hout [RegisterClient mallory; SendAll "state";
                             Send (pid_string "0") "hand"])).
Defined.

(** C4 on [doubled]: [sendAll] hands player 1 its own view once, [send] to
    player 0 hands it nothing. *)
Lemma relay_delivers_filtered_views_witness :
  NoDup (clients doubled)
  ∧ deliveries bob (emitted (sendAll filterPlayerView "state" doubled))
    = ["1 sees state"]
  ∧ deliveries bob (emitted (send filterPlayerView (pid_string "0") "hand" doubled))
    = [].
Proof.
  assert (Hnd : NoDup (clients doubled)).
  { vm_compute. repeat constructor; intros Hin;
      repeat (apply elem_of_cons in Hin as [Hin|Hin]; [discriminate|]);
      by apply elem_of_nil in Hin. }
  destruct (relay_delivers_filtered_views filterPlayerView
              StringToNumber.ToNumber doubled "state" (pid_string "0") bob Hnd)
    as (_ & _ & Hall & _).
  destruct (relay_delivers_filtered_views filterPlayerView
              StringToNumber.ToNumber doubled "hand" (pid_string "0") bob Hnd)
    as (_ & _ & _ & Hone & _).
  split; [exact Hnd|]. split.
  - rewrite Hall. vm_compute. reflexivity.
  - rewrite Hone. vm_compute. reflexivity.
Defined.

(** C5 fails as stated on [doubled]: [send] to player 0 invokes the filter
    once and hands its output to two recipients. *)
Lemma one_view_for_two_recipients :
  let fan_out := emitted (send filterPlayerView (pid_string "0") "hand" doubled) in
  filter_calls fan_out ≠ send_calls fan_out
  ∧ filter_calls fan_out = 1
  ∧ send_calls fan_out = 2
  ∧ fan_out = [FilterPlayerView (pid_string "0") "hand";
               ClientSend alice "0 sees hand";
               ClientSend alice_again "0 sees hand"].
Proof. vm_compute. done. Qed.

(** C6 on [doubled]: unregistering player 1 twice is unregistering it once,
    and unregistering a handle that never registered changes nothing. *)
Lemma unregister_is_idempotent_witness :
  clients (after (unregisterClient (Value := Value) bob doubled))
  = [alice; alice_again]
  ∧ after (unregisterClient (Value := Value) bob
             (after (unregisterClient (Value := Value) bob doubled)))
    = after (unregisterClient (Value := Value) bob doubled)
  ∧ after (unregisterClient (Value := Value) mallory doubled) = doubled.
Proof.
  destruct (unregister_is_idempotent (Value := Value) bob doubled)
    as (_ & _ & _ & _ & Htwice & _).
  destruct (unregister_is_idempotent (Value := Value) mallory doubled)
    as (_ & _ & _ & _ & _ & Hnever).
  split; [vm_compute; reflexivity|]. split; [exact Htwice|].
  apply Hnever. vm_compute. intros Hin.
  repeat (apply elem_of_cons in Hin as [Hin|Hin]; [discriminate|]).
  by apply elem_of_nil in Hin.
Defined.

(** C7 on the fresh match: the binding call of player 0 writes once, and
    what it writes keeps slot 1 and the other metadata fields. *)
Lemma authenticate_effects_are_confined_witness :
  host_ok fresh
  ∧ length (writes (emitted (authenticate alice fresh))) = 1
  ∧ (∃ b, completion (authenticate mallory bound) = Normal b)
  ∧ after (authenticate mallory bound) = bound.
Proof.
  assert (Hfresh : host_ok fresh) by (vm_compute; eauto).
  assert (Hbound : host_ok bound) by (vm_compute; eauto).
  destruct (authenticate_effects_are_confined (Value := Value) StringToNumber.ToNumber
              mallory bound Hbound) as (Hret & _ & _ & _ & _ & Hrej & _).
  destruct (authenticate_effects_are_confined (Value := Value) StringToNumber.ToNumber
              alice fresh Hfresh) as (_ & Hle & _).
  split; [exact Hfresh|]. split; [vm_compute; reflexivity|].
  split; [exact Hret|].
  apply Hrej. vm_compute. reflexivity.
Defined.

(** C8 on the bound match, one message per tag. *)
Lemma action_router_dispatches_witness :
  emitted (processAction {| type := "update"; args := ["move"; "1"] |} bound)
  = [OnUpdate ["move"; "1"]]
  ∧ emitted (processAction {| type := "sync"; args := ["m1"] |} bound)
    = [OnSync ["m1"]]
  ∧ emitted (processAction {| type := "chat"; args := ["hello"] |} bound)
    = [OnChatMessage ["hello"]]
  ∧ processAction {| type := "bogus"; args := ["hello"] |} bound
    = {| completion := Normal tt; after := bound; emitted := [] |}.
Proof.
  split; [|split; [|split]].
  - rewrite (proj1 (action_router_dispatches
                      {| type := "update"; args := ["move"; "1"] |} bound));
      reflexivity.
  - rewrite (proj1 (proj2 (action_router_dispatches
                      {| type := "sync"; args := ["m1"] |} bound)));
      reflexivity.
  - rewrite (proj1 (proj2 (proj2 (action_router_dispatches
                      {| type := "chat"; args := ["hello"] |} bound))));
      reflexivity.
  - apply (proj2 (proj2 (proj2 (action_router_dispatches
                      {| type := "bogus"; args := ["hello"] |} bound))));
      discriminate.
Defined.

(** C9 fails as stated on a game whose name has a space: [createMatch]
    throws, so the constructor throws although no setup data error was
    reported (and the name is neither empty nor ["default"]). *)
Lemma constructor_throws_without_setup_error :
  constructed (construct spaced) = Throw (Error "tic tac toe is not a valid name")
  ∧ (∀ message, createMatch spaced 2 ≠ Normal (setupDataError message))
  ∧ logged (construct spaced) = [].
Proof. split; [vm_compute; reflexivity|]. split; [|vm_compute; reflexivity]. done. Qed.

(** C9 as amended, on four games: a game whose [createMatch] throws and a
    picky game make the constructor throw, an unnamed game is built with a
    warning, a named game is built silently. *)
Lemma construction_follows_createMatch_witness :
  constructed (construct spaced) = Throw (Error "tic tac toe is not a valid name")
  ∧ constructed (construct picky)
    = Throw (Error "setupData Error: setupData required")
  ∧ logged (construct unnamed) = [ConsoleError default_name_warning]
  ∧ (∃ h, constructed (construct unnamed) = Normal h ∧ clients h = [])
  ∧ logged (construct tictactoe) = [].
Proof.
  destruct (construction_follows_createMatch (Value := Value)
              name createMatch spaced None "m1") as (Hspaced & _).
  destruct (construction_follows_createMatch (Value := Value)
              name createMatch picky None "m1") as (_ & Hthrow & _).
  destruct (construction_follows_createMatch (Value := Value)
              name createMatch unnamed None "m1") as (_ & _ & Hbuilt & Hwarn & _).
  destruct (construction_follows_createMatch (Value := Value)
              name createMatch tictactoe None "m1") as (_ & _ & _ & _ & Hquiet).
  split; [|split; [|split; [|split]]].
  - apply Hspaced. reflexivity.
  - apply (Hthrow "setupData required"). reflexivity.
  - apply Hwarn. left. reflexivity.
  - destruct (Hbuilt _ eq_refl) as (h & Hh & Hclients & _). eauto.
  - apply Hquiet; discriminate.
Defined.

(** C10: on the fresh match a handle with empty credentials passes for slot 1
    and nothing is written; on a store where slot 1 holds the empty string
    player 1 passes and binds ["c1"] over it. *)
Lemma empty_credentials_behave_as_absent_witness :
  authenticate blank fresh
  = {| completion := Normal true; after := fresh; emitted := [] |}
  ∧ completion (authenticate bob blanked) = Normal true
  ∧ completion (authenticate early_bird blanked) = Normal true
  ∧ stored_credentials (after (authenticate bob blanked)) 1 = Some (Some "c1").
Proof.
  destruct (empty_credentials_behave_as_absent (Value := Value) StringToNumber.ToNumber
              blank fresh 1 unset) as [Hblank _];
    [vm_compute; reflexivity | vm_compute; reflexivity |].
  destruct (empty_credentials_behave_as_absent (Value := Value) StringToNumber.ToNumber
              bob blanked 1
              {| Server.credentials := Some ""; Server.player_rest := [] |})
    as [_ Hbob]; [vm_compute; reflexivity | vm_compute; reflexivity |].
  destruct (Hbob eq_refl) as [Hpass Hbind].
  split; [apply Hblank; reflexivity|]. split; [exact Hpass|].
  split; [vm_compute; reflexivity|].
  apply Hbind; [reflexivity | discriminate].
Defined.

(** ** The further properties at concrete inputs *)

Lemma fresh_reachable cs :
  Reachable filterPlayerView StringToNumber.ToNumber name createMatch
    (after (play cs fresh)).
Proof.
  apply reachable_run.
  apply (reachable_new _ _ _ _ tictactoe None "m1"). reflexivity.
Qed.

Lemma three_handles_apart : NoDup [alice; alice_again; bob].
Proof.
  repeat constructor; intros Hin;
    repeat (apply elem_of_cons in Hin as [Hin|Hin]; [discriminate|]);
    by apply elem_of_nil in Hin.
Qed.

(** X1 on the fresh match: player 0 binds, asks again, and is let in again
    without a second write. *)
Lemma gate_asked_twice_witness :
  completion (authenticate alice fresh) = Normal true
  ∧ authenticate alice (after (authenticate alice fresh))
    = {| completion := Normal true; after := after (authenticate alice fresh);
         emitted := [] |}.
Proof.
  assert (Hret : completion (authenticate alice fresh) = Normal true)
    by (vm_compute; reflexivity).
  split; [exact Hret|].
  exact (gate_asked_twice StringToNumber.ToNumber alice fresh true Hret).
Defined.

(** X2 on the fresh match: player 0 binding its slot does not change the
    answer for player 1. *)
Lemma slots_are_independent_witness :
  claimed_key StringToNumber.ToNumber bob ≠ claimed_key StringToNumber.ToNumber alice
  ∧ completion (authenticate bob (after (authenticate alice fresh)))
    = completion (authenticate bob fresh).
Proof.
  assert (Hne : claimed_key StringToNumber.ToNumber bob
                ≠ claimed_key StringToNumber.ToNumber alice)
    by (vm_compute; discriminate).
  split; [exact Hne|].
  exact (slots_are_independent (Value := Value) StringToNumber.ToNumber
           alice bob fresh Hne).
Defined.

(** X3 on [doubled]: the first handle of player 0 still passes. *)
Lemma credentialed_handles_stay_valid_witness :
  alice ∈ clients doubled
  ∧ authenticate alice doubled
    = {| completion := Normal true; after := doubled; emitted := [] |}.
Proof.
  assert (Hin : alice ∈ clients doubled)
    by (vm_compute; apply list_elem_of_here).
  split; [exact Hin|].
  apply (proj1 (credentialed_handles_stay_valid filterPlayerView
                  StringToNumber.ToNumber name createMatch doubled alice
                  (fresh_reachable _) Hin)).
  reflexivity.
Defined.

(** X4 on the fresh match: after both players bound their slots the
    metadata has evolved from the initial one. *)
Lemma store_only_gains_credentials_witness :
  ∃ md md',
    fetched fresh = Some md
    ∧ fetched (after (play [RegisterClient alice; RegisterClient bob;
                            RegisterClient mallory] fresh)) = Some md'
    ∧ evolves md md'.
Proof.
  destruct (fetched fresh) as [md|] eqn:Hmd; [|vm_compute in Hmd; discriminate].
  destruct (store_only_gains_credentials filterPlayerView StringToNumber.ToNumber
              fresh md [RegisterClient alice; RegisterClient bob;
                        RegisterClient mallory] Hmd) as (md' & Hmd' & Hev).
  exists md, md'. split; [reflexivity|]. split; [exact Hmd'|exact Hev].
Defined.

(** X6 on the bound match: player 1 registers and is served. *)
Lemma registered_handle_is_served_witness :
  NoDup (clients bound)
  ∧ completion (authenticate bob bound) = Normal true
  ∧ deliveries bob (emitted (sendAll filterPlayerView "state"
                               (after (register bob bound))))
    = ["1 sees state"].
Proof.
  assert (Hnd : NoDup (clients bound)) by (vm_compute; apply NoDup_singleton).
  assert (Hret : completion (authenticate bob bound) = Normal true)
    by (vm_compute; reflexivity).
  destruct (registered_handle_is_served filterPlayerView StringToNumber.ToNumber
              bob bound "state" Hnd Hret) as (Hall & _ & _).
  split; [exact Hnd|]. split; [exact Hret|exact Hall].
Defined.

(** X7 on [doubled]: player 1 leaves and hears nothing more, player 0 hears
    what it heard. *)
Lemma unregistered_handle_is_cut_off_witness :
  NoDup (clients doubled)
  ∧ deliveries bob
      (emitted (sendAll filterPlayerView "state"
                  (after (unregisterClient (Value := Value) bob doubled)))) = []
  ∧ deliveries alice
      (emitted (sendAll filterPlayerView "state"
                  (after (unregisterClient (Value := Value) bob doubled))))
    = deliveries alice (emitted (sendAll filterPlayerView "state" doubled)).
Proof.
  assert (Hnd : NoDup (clients doubled)) by (vm_compute; apply three_handles_apart).
  destruct (unregistered_handle_is_cut_off filterPlayerView bob doubled "state"
              pid_null bob Hnd) as [Hbob _].
  destruct (unregistered_handle_is_cut_off filterPlayerView bob doubled "state"
              pid_null alice Hnd) as [Halice _].
  split; [exact Hnd|]. split.
  - rewrite Hbob. reflexivity.
  - rewrite Halice. reflexivity.
Defined.

(** X8 on the fresh match: player 0 registers, binds ["c0"], leaves; the
    registry is empty again and ["c0"] is still bound. *)
Lemma register_then_unregister_witness :
  (alice ∉ clients fresh)
  ∧ clients (after (unregisterClient (Value := Value) alice
                      (after (register alice fresh)))) = []
  ∧ stored_credentials
      (after (unregisterClient (Value := Value) alice (after (register alice fresh))))
      0 = Some (Some "c0").
Proof.
  assert (Hout : alice ∉ clients fresh)
    by (vm_compute; intros Hin; by apply elem_of_nil in Hin).
  assert (Hret : completion (authenticate alice fresh) = Normal true)
    by (vm_compute; reflexivity).
  destruct (register_then_unregister StringToNumber.ToNumber alice fresh
              Hout Hret) as (Hreg & Hst).
  split; [exact Hout|]. split; [exact Hreg|].
  unfold register. rewrite Hst. vm_compute. reflexivity.
Defined.

(** X9 on [doubled]: a spectator let in goes to the end, player 0 let in
    again stays first. *)
Lemma delivery_follows_registration_order_witness :
  recipients (emitted (sendAll filterPlayerView "state" doubled))
  = [alice; alice_again; bob]
  ∧ clients (after (register watcher doubled))
    = [alice; alice_again; bob; watcher]
  ∧ clients (after (register alice doubled)) = [alice; alice_again; bob].
Proof.
  destruct (delivery_follows_registration_order filterPlayerView
              StringToNumber.ToNumber watcher doubled "state" pid_null)
    as (Hall & _ & Hnew).
  destruct (delivery_follows_registration_order filterPlayerView
              StringToNumber.ToNumber alice doubled "state" pid_null)
    as (_ & _ & Hold).
  unfold register.
  split; [rewrite Hall; reflexivity|]. split.
  - rewrite (proj1 (Hnew ltac:(vm_compute; reflexivity))); [reflexivity|].
    vm_compute. intros Hin.
    repeat (apply elem_of_cons in Hin as [Hin|Hin]; [discriminate|]).
    by apply elem_of_nil in Hin.
  - rewrite (proj2 (Hold ltac:(vm_compute; reflexivity))); [reflexivity|].
    vm_compute. apply list_elem_of_here.
Defined.

(** X10 on the fresh match: after a run the host still serves ["m1"] and
    has nothing under ["m2"]. *)
Lemma host_stays_with_its_match_witness :
  matchID (after (play [RegisterClient alice; UnregisterClient alice] fresh)) = "m1"
  ∧ db (after (play [RegisterClient alice; UnregisterClient alice] fresh)) !! "m2"
    = None.
Proof.
  destruct (host_stays_with_its_match filterPlayerView StringToNumber.ToNumber
              fresh [RegisterClient alice; UnregisterClient alice])
    as (Hid & Hdb & _).
  unfold play.
  split; [rewrite Hid; reflexivity|].
  rewrite (Hdb "m2"); [vm_compute; reflexivity | vm_compute; discriminate].
Defined.

(** X11 on the fresh match: player 1, registered by the run, was announced. *)
Lemma registered_handles_were_announced_witness :
  bob ∈ clients (after (play [RegisterClient alice; RegisterClient bob] fresh))
  ∧ OnConnectionChange "m1" (pid_string "1") (Some "c1") true
    ∈ emitted (play [RegisterClient alice; RegisterClient bob] fresh).
Proof.
  assert (Hin : bob ∈ clients (after (play [RegisterClient alice;
                                             RegisterClient bob] fresh)))
    by (vm_compute; apply list_elem_of_further, list_elem_of_here).
  split; [exact Hin|].
  destruct (registered_handles_were_announced filterPlayerView
              StringToNumber.ToNumber [RegisterClient alice; RegisterClient bob]
              fresh bob Hin) as [Hold|Hnew]; [|exact Hnew].
  vm_compute in Hold. by apply elem_of_nil in Hold.
Defined.

(** X13 on the bound match: player 0 comes back on a second handle. *)
Lemma reconnect_with_same_credentials_witness :
  alice ∈ clients bound
  ∧ clients (after (register alice_again bound)) = [alice; alice_again]
  ∧ deliveries alice_again
      (emitted (sendAll filterPlayerView "state" (after (register alice_again bound))))
    = ["0 sees state"].
Proof.
  assert (Hin : alice ∈ clients bound) by (vm_compute; apply list_elem_of_here).
  destruct (reconnect_with_same_credentials filterPlayerView
              StringToNumber.ToNumber name createMatch bound alice alice_again
              "state" (fresh_reachable _) Hin eq_refl eq_refl)
    as (_ & _ & _ & Hnew & _).
  split; [exact Hin|]. split; [vm_compute; reflexivity|exact Hnew].
Defined.

(** X14 on the fresh match: the handle without credentials is let in for
    slot 0, player 0 binds the slot, and the first handle is rejected by the
    gate but still served. *)
Lemma anonymous_handle_outlives_binding_witness :
  completion (authenticate early_bird fresh) = Normal true
  ∧ completion (authenticate early_bird crowded) = Normal false
  ∧ early_bird ∈ clients crowded
  ∧ deliveries early_bird (emitted (sendAll filterPlayerView "state" crowded))
    = ["0 sees state"].
Proof.
  destruct (anonymous_handle_outlives_binding filterPlayerView
              StringToNumber.ToNumber fresh early_bird alice 0 unset "state")
    as (Hfirst & _ & _ & _ & Hrej & _ & Hin & Hsent);
    [apply NoDup_nil_2 | vm_compute; reflexivity | vm_compute; reflexivity
    | vm_compute; reflexivity | reflexivity | reflexivity | reflexivity |].
  split; [exact Hfirst|]. split; [exact Hrej|]. split; [exact Hin|exact Hsent].
Defined.
